(** * photobundle: subpixel sampling, ZNCC patches and scene points

    A shallow embedding of [src/photobundle.cc].

    Conventions of the embedding.
    - The floating point template parameter [T] is read as the field of real
      numbers: every arithmetic operation is exact, rounding, infinities and
      NaN are outside the model.
    - [int] values are integers of [Z]; [(int) std::floor(v)] is [Zfloor v],
      which is what the source computes when the integer part of [v] fits an
      [int] ([int_coordinate]) and the dimensions of the raster do
      ([int_sized]); the conversion of a larger value is undefined in the
      source.
    - A raster is its two dimensions and its pixel function; indexing it
      outside its dimensions is undefined in the source and is made explicit
      here as the result [OutOfRange row col]. *)

From Stdlib Require Import Reals ZArith NArith List Bool Lra Lia Sorted.
Import ListNotations.

Open Scope R_scope.

(** ** Results of code that indexes a raster *)

Inductive access (A : Type) : Type :=
| Val (a : A)
| OutOfRange (row col : Z).

Arguments Val {A} a.
Arguments OutOfRange {A} row col.

Definition ret {A : Type} (a : A) : access A := Val a.

Definition bind {A B : Type} (m : access A) (k : A -> access B) : access B :=
  match m with
  | Val a => k a
  | OutOfRange r c => OutOfRange r c
  end.

Notation "x <- m ;; k" := (bind m (fun x => k))
  (at level 61, m at next level, right associativity).

Fixpoint mapA {A B : Type} (f : A -> access B) (l : list A) : access (list B) :=
  match l with
  | [] => ret []
  | a :: l' => b <- f a ;; bs <- mapA f l' ;; ret (b :: bs)
  end.

(** ** Rasters *)

Record Image : Type := mkImage {
  rows : Z;
  cols : Z;
  pix : Z -> Z -> R
}.

(** [I(r, c)] *)
Definition at_ (I : Image) (r c : Z) : access R :=
  if ((0 <=? r) && (r <? rows I) && (0 <=? c) && (c <? cols I))%Z
  then Val (pix I r c)
  else OutOfRange r c.

(** ** The subpixel sampler *)

Definition interp2 (I : Image) (xf yf fillval offset : R) : access R :=
  let max_cols := (cols I - 1)%Z in
  let max_rows := (rows I - 1)%Z in
  let xf := xf + offset in
  let yf := yf + offset in
  let xi := Zfloor xf in
  let yi := Zfloor yf in
  let xf := xf - IZR xi in
  let yf := yf - IZR yi in
  if ((0 <=? xi) && (xi <? max_cols) && (0 <=? yi) && (yi <? max_rows))%Z
  then
    let wx := 1 - xf in
    i00 <- at_ I yi xi ;;
    i01 <- at_ I yi (xi + 1) ;;
    i10 <- at_ I (yi + 1) xi ;;
    i11 <- at_ I (yi + 1) (xi + 1) ;;
    ret ((1 - yf) * (i00 * wx + i01 * xf) + yf * (i10 * wx + i11 * xf))
  else
    if ((xi =? max_cols) && (yi <? max_rows))%Z then
      if Rgt_dec xf 0 then ret fillval
      else
        i0 <- at_ I yi xi ;;
        i1 <- at_ I (yi + 1) xi ;;
        ret ((1 - yf) * i0 + yf * i1)
    else if ((yi =? max_rows) && (xi <? max_cols))%Z then
      if Rgt_dec yf 0 then ret fillval
      else
        i0 <- at_ I yi xi ;;
        i1 <- at_ I yi (xi + 1) ;;
        ret ((1 - xf) * i0 + xf * i1)
    else if ((xi =? max_cols) && (yi =? max_rows))%Z then
      if Rgt_dec xf 0 then ret fillval
      else if Rgt_dec yf 0 then ret fillval
      else at_ I yi xi
    else ret fillval.

(** ** Fixed size patches *)

Definition square (n : Z) : Z := (n * n)%Z.

(** The values taken by a loop variable running from [-Radius] to [Radius]. *)
Definition offsets (Radius : nat) : list Z :=
  map (fun k => (Z.of_nat k - Z.of_nat Radius)%Z) (seq 0 (2 * Radius + 1)).

(** The two nested loops of the patch extractors: [c] is the outer variable
    and [r] the inner one, and the running index [i] grows by one per inner
    iteration, so that [dst] is filled column by column. *)
Definition forGrid {A : Type} (Radius : nat) (body : Z -> Z -> access A)
    : access (list A) :=
  columns <- mapA (fun c => mapA (fun r => body c r) (offsets Radius))
                  (offsets Radius) ;;
  ret (concat columns).

Definition interpolateFixedPatch (Radius : nat) (I : Image) (p : R * R)
    (fillval offset : R) : access (list R) :=
  let x := fst p + offset in
  let y := snd p + offset in
  forGrid Radius (fun c r =>
    let xf := x + IZR c in
    let yf := y + IZR r in
    interp2 I xf yf fillval 0).

(** [std::round]: to the nearest integer, halfway cases away from zero. *)
Definition round (v : R) : Z :=
  if Rle_dec 0 v then Zfloor (v + / 2) else Zceil (v - / 2).

Definition copyFixedPatch (Radius : nat) (I : Image) (p : R * R)
    : access (list R) :=
  let x := round (fst p) in
  let y := round (snd p) in
  let max_cols := (cols I - 1)%Z in
  let max_rows := (rows I - 1)%Z in
  forGrid Radius (fun c r =>
    let xf := Z.max (Z.of_nat Radius) (Z.min (x + c) max_cols) in
    let yf := Z.max (Z.of_nat Radius) (Z.min (y + r) max_rows) in
    at_ I yf xf).

(** ** ZnccPatch *)

Definition sum (v : list R) : R := fold_right Rplus 0 v.

Fixpoint dot (u v : list R) : R :=
  match u, v with
  | a :: u', b :: v' => a * b + dot u' v'
  | _, _ => 0
  end.

(** Euclidean norm of a vector *)
Definition norm (v : list R) : R := sqrt (dot v v).

Record ZnccPatch : Type := mkZnccPatch {
  _data : list R;
  _norm : R
}.

Definition Dimension (Radius : nat) : Z :=
  ((2 * Z.of_nat Radius + 1) * (2 * Z.of_nat Radius + 1))%Z.

(** [set] and [score] with the arithmetic of the reals: the source computes
    mean, norm, product and quotient in [T] (binary32 for the patches of a
    scene point) and agrees with these definitions up to rounding. *)
Module Zncc.

Definition set (Radius : nat) (I : Image) (uv : R * R) : access ZnccPatch :=
  data <- interpolateFixedPatch Radius I uv 0 0 ;;
  let mean := sum data / IZR (Dimension Radius) in
  let data := map (fun v => v - mean) data in
  ret (mkZnccPatch data (norm data)).

Definition FromImage (Radius : nat) (I : Image) (p : R * R)
    : access ZnccPatch :=
  set Radius I p.

Definition score (this other : ZnccPatch) : R :=
  let d := _norm this * _norm other in
  if Rgt_dec d 1e-6 then dot (_data this) (_data other) / d else -1.

End Zncc.

(** ** ScenePoint *)

Definition Vec3 : Type := R * R * R.

Record ScenePoint : Type := mkScenePoint {
  _X : Vec3;
  _X_original : Vec3;
  _f : list N;                       (* VisibilityList, frame ids are uint32_t *)
  _patch : option ZnccPatch;         (* None until setZnccPach is called *)
  _descriptor : list R;
  _saliency : R;
  _was_refined : bool;
  _x : option (Z * Z)                (* None until setFirstProjection is called *)
}.

Module SP.

(** The constructor [ScenePoint(X, f_id)]. *)
Definition new (X : Vec3) (f_id : N) : ScenePoint :=
  {| _X := X; _X_original := X; _f := [f_id]; _patch := None;
     _descriptor := []; _saliency := 0; _was_refined := false; _x := None |}.

Definition hasFrame (p : ScenePoint) (f_id : N) : bool :=
  existsb (N.eqb f_id) (_f p).

Definition visibilityList (p : ScenePoint) : list N := _f p.

(** [front()] and [back()] of the visibility list; they are undefined on an
    empty vector, which is [None] here. *)
Definition refFrameId (p : ScenePoint) : option N := hd_error (_f p).
Definition lastFrameId (p : ScenePoint) : option N := hd_error (rev (_f p)).

Definition addFrame (p : ScenePoint) (f : N) : ScenePoint :=
  {| _X := _X p; _X_original := _X_original p; _f := _f p ++ [f];
     _patch := _patch p; _descriptor := _descriptor p;
     _saliency := _saliency p; _was_refined := _was_refined p; _x := _x p |}.

Definition setX (p : ScenePoint) (X : Vec3) : ScenePoint :=
  {| _X := X; _X_original := _X_original p; _f := _f p;
     _patch := _patch p; _descriptor := _descriptor p;
     _saliency := _saliency p; _was_refined := _was_refined p; _x := _x p |}.

(** [ZnccPatchType] is [ZnccPatch<2, float>]. *)
Definition setZnccPach (p : ScenePoint) (I : Image) (x : R * R)
    : access ScenePoint :=
  z <- Zncc.set 2 I x ;;
  ret {| _X := _X p; _X_original := _X_original p; _f := _f p;
         _patch := Some z; _descriptor := _descriptor p;
         _saliency := _saliency p; _was_refined := _was_refined p;
         _x := _x p |}.

Definition setDescriptor (p : ScenePoint) (d : list R) : ScenePoint :=
  {| _X := _X p; _X_original := _X_original p; _f := _f p;
     _patch := _patch p; _descriptor := d;
     _saliency := _saliency p; _was_refined := _was_refined p; _x := _x p |}.

Definition setSaliency (p : ScenePoint) (v : R) : ScenePoint :=
  {| _X := _X p; _X_original := _X_original p; _f := _f p;
     _patch := _patch p; _descriptor := _descriptor p;
     _saliency := v; _was_refined := _was_refined p; _x := _x p |}.

Definition setRefined (p : ScenePoint) (v : bool) : ScenePoint :=
  {| _X := _X p; _X_original := _X_original p; _f := _f p;
     _patch := _patch p; _descriptor := _descriptor p;
     _saliency := _saliency p; _was_refined := v; _x := _x p |}.

Definition setFirstProjection (p : ScenePoint) (x : Z * Z) : ScenePoint :=
  {| _X := _X p; _X_original := _X_original p; _f := _f p;
     _patch := _patch p; _descriptor := _descriptor p;
     _saliency := _saliency p; _was_refined := _was_refined p;
     _x := Some x |}.

Definition numFrames (p : ScenePoint) : nat := length (_f p).

(** One call of a member function that may change a scene point.  [ok p f]
    is what the caller of [addFrame] guarantees about the frame id it
    passes. *)
Inductive step (ok : ScenePoint -> N -> Prop) : ScenePoint -> ScenePoint -> Prop :=
| step_addFrame p f : ok p f -> step ok p (addFrame p f)
| step_setX p X : step ok p (setX p X)
| step_setZnccPach p I x p' : setZnccPach p I x = Val p' -> step ok p p'
| step_setDescriptor p d : step ok p (setDescriptor p d)
| step_setSaliency p v : step ok p (setSaliency p v)
| step_setRefined p v : step ok p (setRefined p v)
| step_setFirstProjection p x : step ok p (setFirstProjection p x).

(** The scene points obtained from [ScenePoint(X, f_id)] by member calls. *)
Inductive reachable (ok : ScenePoint -> N -> Prop) (X : Vec3) (f_id : N)
    : ScenePoint -> Prop :=
| reach_new : reachable ok X f_id (new X f_id)
| reach_step p p' :
    reachable ok X f_id p -> step ok p p' -> reachable ok X f_id p'.

(** No constraint on the caller of [addFrame]. *)
Definition any_frame (p : ScenePoint) (f : N) : Prop := True.

(** The caller of [addFrame] passes a frame id above the last one. *)
Definition later_frame (p : ScenePoint) (f : N) : Prop :=
  forall l, lastFrameId p = Some l -> (l < f)%N.

End SP.

(** ** PhotometricBundleAdjustment *)

Definition Mat44 : Type := nat -> nat -> R.

Record ImageSize : Type := mkImageSize {
  size_rows : Z;
  size_cols : Z
}.

Section Engine.

(** [Calibration] and [Options] are declared in headers that are not part of
    the sources at hand; nothing below looks inside them. *)
Variables Calibration Options : Type.

(** Modelled from the spec: the class declaration (photobundle.h) is missing.
    The constructor initialises [_calib], [_image_size] and [_options]; the
    scene-point map the spec gives to the engine is the field
    [_scene_points], empty after construction. *)
Record PhotometricBundleAdjustment : Type := mkBundle {
  _calib : Calibration;
  _image_size : ImageSize;
  _options : Options;
  _scene_points : list ScenePoint
}.

Definition newBundle (calib : Calibration) (image_size : ImageSize)
    (options : Options) : PhotometricBundleAdjustment :=
  {| _calib := calib; _image_size := image_size; _options := options;
     _scene_points := [] |}.

(** Modelled from the spec: the parts of [Result] (declared in photobundle.h,
    missing) that a call may write. *)
Inductive ResultField : Type :=
| RefinedPoses
| TrackedPoints
| Diagnostics.

Inductive Outcome : Type :=
| Returned
| Failed.

(** What one call does: how it ends, which parts of [*result] it stores to,
    and the engine it leaves behind. *)
Record Effect : Type := mkEffect {
  outcome : Outcome;
  stores : list ResultField;
  after : PhotometricBundleAdjustment
}.

(** [addFrame(I_ptr, Z_ptr, T, result)]: the body is empty. *)
Definition addFrame (this : PhotometricBundleAdjustment)
    (I_ptr : list Z) (Z_ptr : list R) (T : Mat44) : Effect :=
  {| outcome := Returned; stores := []; after := this |}.

(** The preconditions the spec puts on the arguments of [addFrame]. *)
Definition matches_size (s : ImageSize) {A : Type} (buf : list A) : Prop :=
  Z.of_nat (length buf) = (size_rows s * size_cols s)%Z.

Definition rot_dot (T : Mat44) (i j : nat) : R :=
  T 0%nat i * T 0%nat j + T 1%nat i * T 1%nat j + T 2%nat i * T 2%nat j.

Definition det3 (T : Mat44) : R :=
  T 0%nat 0%nat * (T 1%nat 1%nat * T 2%nat 2%nat - T 1%nat 2%nat * T 2%nat 1%nat)
  - T 0%nat 1%nat * (T 1%nat 0%nat * T 2%nat 2%nat - T 1%nat 2%nat * T 2%nat 0%nat)
  + T 0%nat 2%nat * (T 1%nat 0%nat * T 2%nat 1%nat - T 1%nat 1%nat * T 2%nat 0%nat).

Definition rigid (T : Mat44) : Prop :=
  (forall i j, (i < 3)%nat -> (j < 3)%nat ->
     rot_dot T i j = if Nat.eqb i j then 1 else 0) /\
  det3 T = 1 /\
  T 3%nat 0%nat = 0 /\ T 3%nat 1%nat = 0 /\ T 3%nat 2%nat = 0 /\ T 3%nat 3%nat = 1.

Definition well_formed (this : PhotometricBundleAdjustment)
    (I_ptr : list Z) (Z_ptr : list R) (T : Mat44) : Prop :=
  matches_size (_image_size this) I_ptr /\
  matches_size (_image_size this) Z_ptr /\
  rigid T.

Definition writes_result (e : Effect) : Prop :=
  In RefinedPoses (stores e) /\ In TrackedPoints (stores e) /\
  In Diagnostics (stores e).

End Engine.

Arguments _calib {Calibration Options} p.
Arguments _image_size {Calibration Options} p.
Arguments _options {Calibration Options} p.
Arguments _scene_points {Calibration Options} p.
Arguments newBundle {Calibration Options} calib image_size options.
Arguments outcome {Calibration Options} e.
Arguments stores {Calibration Options} e.
Arguments after {Calibration Options} e.
Arguments addFrame {Calibration Options} this I_ptr Z_ptr T.
Arguments well_formed {Calibration Options} this I_ptr Z_ptr T.
Arguments writes_result {Calibration Options} e.

(** ** Derived forms *)

(** [interp2] with the default offset, in terms of the integer parts
    [xi], [yi] and the fractional parts [fx], [fy] of the coordinate. *)
Definition interp2_at (I : Image) (xi yi : Z) (fx fy fillval : R) : access R :=
  let max_cols := (cols I - 1)%Z in
  let max_rows := (rows I - 1)%Z in
  if ((0 <=? xi) && (xi <? max_cols) && (0 <=? yi) && (yi <? max_rows))%Z
  then
    i00 <- at_ I yi xi ;;
    i01 <- at_ I yi (xi + 1) ;;
    i10 <- at_ I (yi + 1) xi ;;
    i11 <- at_ I (yi + 1) (xi + 1) ;;
    ret ((1 - fy) * (i00 * (1 - fx) + i01 * fx)
         + fy * (i10 * (1 - fx) + i11 * fx))
  else
    if ((xi =? max_cols) && (yi <? max_rows))%Z then
      if Rgt_dec fx 0 then ret fillval
      else
        i0 <- at_ I yi xi ;;
        i1 <- at_ I (yi + 1) xi ;;
        ret ((1 - fy) * i0 + fy * i1)
    else if ((yi =? max_rows) && (xi <? max_cols))%Z then
      if Rgt_dec fy 0 then ret fillval
      else
        i0 <- at_ I yi xi ;;
        i1 <- at_ I yi (xi + 1) ;;
        ret ((1 - fx) * i0 + fx * i1)
    else if ((xi =? max_cols) && (yi =? max_rows))%Z then
      if Rgt_dec fx 0 then ret fillval
      else if Rgt_dec fy 0 then ret fillval
      else at_ I yi xi
    else ret fillval.

(** The pixel of column [x] and row [y], or the fill value beyond the last
    column or row. *)
Definition pixel_or (I : Image) (fillval : R) (x y : Z) : R :=
  if ((x <? cols I) && (y <? rows I))%Z then pix I y x else fillval.

(** The patch [set] builds from given samples. *)
Definition patch_of (Radius : nat) (samples : list R) : ZnccPatch :=
  let mean := sum samples / IZR (Dimension Radius) in
  let data := map (fun v => v - mean) samples in
  mkZnccPatch data (norm data).

(** ** Example inputs *)

(** Two rows and two columns holding 1 2 / 3 4. *)
Definition raster22 : Image :=
  {| rows := 2; cols := 2; pix := fun r c => IZR (2 * r + c + 1) |}.

(** Five rows and five columns, the pixel of row [r] and column [c] holding
    [10 r + c]. *)
Definition raster55 : Image :=
  {| rows := 5; cols := 5; pix := fun r c => IZR (10 * r + c) |}.

(** Five rows and five columns, zero except for the first [w] pixels of the
    middle row, which hold [v]. *)
Definition raster_bar (w : Z) (v : R) : Image :=
  {| rows := 5; cols := 5;
     pix := fun r c => if ((r =? 2) && (c <? w))%Z then v else 0 |}.

(** [n] rows and [n] columns, every pixel holding [v]. *)
Definition raster_flat (n : Z) (v : R) : Image :=
  {| rows := n; cols := n; pix := fun _ _ => v |}.

Definition zero5 : list R := [0; 0; 0; 0; 0].

Definition patch_bar1 (v : R) : ZnccPatch :=
  patch_of 2 ([0; 0; v; 0; 0] ++ zero5 ++ zero5 ++ zero5 ++ zero5).

Definition patch_flat_corner (v : R) : ZnccPatch :=
  patch_of 2 ([v; v; v; 0; 0] ++ [v; v; v; 0; 0] ++ [v; v; v; 0; 0]
              ++ zero5 ++ zero5).

Definition patch_flat (v : R) : ZnccPatch :=
  patch_of 2 (repeat v 25).

Definition origin : Vec3 := (0, 0, 0).

(** The pose that maps every point to itself. *)
Definition identity44 : Mat44 := fun i j => if Nat.eqb i j then 1 else 0.

(** ** The wording of the specification *)

(** A raster all of whose pixels hold [v]. *)
Definition flat (I : Image) (v : R) : Prop :=
  forall r c, (0 <= r < rows I)%Z -> (0 <= c < cols I)%Z -> pix I r c = v.

(** The border rule as the specification words it: exactly on the last
    column, on a row of the raster before the last, a non-zero fractional row
    part gives the fill value, and likewise exactly on the last row with the
    fractional column part. *)
Definition border_fill_by_other_axis : Prop :=
  forall (I : Image) (x y fillval : R),
    (1 <= rows I)%Z -> (1 <= cols I)%Z ->
    (x = IZR (cols I - 1) /\ (0 <= Zfloor y < rows I - 1)%Z /\
     y - IZR (Zfloor y) <> 0)
    \/ (y = IZR (rows I - 1) /\ (0 <= Zfloor x < cols I - 1)%Z /\
        x - IZR (Zfloor x) <> 0) ->
    interp2 I x y fillval 0 = Val fillval.

(** The self-score as the specification words it. *)
Definition self_score_one_if_norm_positive : Prop :=
  forall (Radius : nat) (I : Image) (uv : R * R) (a : ZnccPatch),
    Zncc.set Radius I uv = Val a -> 0 < _norm a -> Zncc.score a a = 1.

(** The degenerate case as the specification words it: a patch built from
    a raster without variance scores the sentinel against every patch. *)
Definition flat_raster_scores_sentinel : Prop :=
  forall (Radius : nat) (I : Image) (uv : R * R) (v : R) (a b : ZnccPatch),
    flat I v -> Zncc.set Radius I uv = Val a -> Zncc.score a b = -1.

(** The contract of [addFrame] as the specification words it. *)
Definition addFrame_contract : Prop :=
  forall (Calibration Options : Type)
         (this : PhotometricBundleAdjustment Calibration Options)
         (I_ptr : list Z) (Z_ptr : list R) (T : Mat44),
    let e := addFrame this I_ptr Z_ptr T in
    (outcome e = Returned /\ writes_result e)
    \/ (~ well_formed this I_ptr Z_ptr T /\ outcome e = Failed /\
        _scene_points (after e) = _scene_points this).

(** ** The range of [int] *)

Definition INT_MIN : Z := (-2147483648)%Z.
Definition INT_MAX : Z := 2147483647%Z.

Definition fits_int (z : Z) : Prop := (INT_MIN <= z <= INT_MAX)%Z.

(** [(int) std::floor(v)] is defined. *)
Definition int_coordinate (v : R) : Prop := fits_int (Zfloor v).

(** [I.rows()] and [I.cols()] fit the [int] variables [max_rows] and
    [max_cols] are computed in. *)
Definition int_sized (I : Image) : Prop :=
  fits_int (rows I) /\ fits_int (cols I).

(** ** Operations on rasters and calls in sequence *)

(** The raster with every pixel multiplied by the gain [s]. *)
Definition scale_image (s : R) (I : Image) : Image :=
  {| rows := rows I; cols := cols I; pix := fun r c => s * pix I r c |}.

(** The raster with the brightness [b] added to every pixel. *)
Definition shift_image (b : R) (I : Image) : Image :=
  {| rows := rows I; cols := cols I; pix := fun r c => pix I r c + b |}.

(** [ScenePoint(X, f_id)] followed by one [addFrame] per element of [fs]. *)
Definition observed (X : Vec3) (f_id : N) (fs : list N) : ScenePoint :=
  fold_left SP.addFrame fs (SP.new X f_id).

(** The raster with rows and columns exchanged. *)
Definition transpose_image (I : Image) : Image :=
  {| rows := cols I; cols := rows I; pix := fun r c => pix I c r |}.

(** * Properties *)

(** ** Raster access *)

Lemma at_inside (I : Image) (r c : Z) :
  (0 <= r < rows I)%Z -> (0 <= c < cols I)%Z -> at_ I r c = Val (pix I r c).
Proof.
  intros Hr Hc. unfold at_.
  replace (0 <=? r)%Z with true by (symmetry; apply Z.leb_le; lia).
  replace (r <? rows I)%Z with true by (symmetry; apply Z.ltb_lt; lia).
  replace (0 <=? c)%Z with true by (symmetry; apply Z.leb_le; lia).
  replace (c <? cols I)%Z with true by (symmetry; apply Z.ltb_lt; lia).
  reflexivity.
Qed.

Lemma at_outside (I : Image) (r c : Z) :
  (r < 0 \/ rows I <= r \/ c < 0 \/ cols I <= c)%Z ->
  at_ I r c = OutOfRange r c.
Proof.
  intros H. unfold at_.
  destruct (Z.leb_spec 0 r), (Z.ltb_spec r (rows I)),
    (Z.leb_spec 0 c), (Z.ltb_spec c (cols I)); simpl; try reflexivity; lia.
Qed.

Lemma Rgt_dec_true (a b : R) (A : Type) (u v : A) :
  a > b -> (if Rgt_dec a b then u else v) = u.
Proof. intros H. destruct (Rgt_dec a b); [reflexivity | contradiction]. Qed.

Lemma Rgt_dec_false (a b : R) (A : Type) (u v : A) :
  a <= b -> (if Rgt_dec a b then u else v) = v.
Proof. intros H. destruct (Rgt_dec a b); [lra | reflexivity]. Qed.

(** Decide the integer tests of a branch from the context. *)
Ltac ztests :=
  repeat match goal with
  | |- context [(?a <=? ?b)%Z] => destruct (Z.leb_spec a b); try lia
  | |- context [(?a <? ?b)%Z] => destruct (Z.ltb_spec a b); try lia
  | |- context [(?a =? ?b)%Z] => destruct (Z.eqb_spec a b); try lia
  end; cbn [andb orb negb].

(** ** The sampler at given integer and fractional parts *)

Lemma interp2_split (I : Image) (x y fillval : R) (xi yi : Z) (fx fy : R) :
  x = IZR xi + fx -> 0 <= fx < 1 ->
  y = IZR yi + fy -> 0 <= fy < 1 ->
  interp2 I x y fillval 0 = interp2_at I xi yi fx fy fillval.
Proof.
  intros Hx Hfx Hy Hfy. unfold interp2, interp2_at.
  rewrite !Rplus_0_r.
  assert (Zfloor x = xi) as -> by (apply Zfloor_eq; lra).
  assert (Zfloor y = yi) as -> by (apply Zfloor_eq; lra).
  replace (x - IZR xi) with fx by lra.
  replace (y - IZR yi) with fy by lra.
  reflexivity.
Qed.

Lemma interp2_integer (I : Image) (x y : Z) (fillval : R) :
  (0 <= x < cols I)%Z -> (0 <= y < rows I)%Z ->
  interp2 I (IZR x) (IZR y) fillval 0 = Val (pix I y x).
Proof.
  intros Hx Hy.
  rewrite (interp2_split I _ _ fillval x y 0 0) by lra.
  unfold interp2_at. ztests;
    rewrite ?(Rgt_dec_false 0 0) by lra;
    rewrite ?at_inside by lia; cbn [bind]; unfold ret;
    try reflexivity; f_equal; ring.
Qed.

(** In the quadrant of non-negative coordinates the sampler never leaves
    the raster. *)
Lemma interp2_at_defined (I : Image) (xi yi : Z) (fx fy fillval : R) :
  (1 <= rows I)%Z -> (1 <= cols I)%Z -> (0 <= xi)%Z -> (0 <= yi)%Z ->
  exists v, interp2_at I xi yi fx fy fillval = Val v.
Proof.
  intros Hr Hc Hx Hy. unfold interp2_at. ztests;
    repeat match goal with
    | |- context [Rgt_dec ?a ?b] => destruct (Rgt_dec a b)
    end;
    rewrite ?at_inside by lia; cbn [bind]; unfold ret; eexists; reflexivity.
Qed.

Lemma Zfloor_split (x : R) :
  x = IZR (Zfloor x) + (x - IZR (Zfloor x)) /\ 0 <= x - IZR (Zfloor x) < 1.
Proof. pose proof (Zfloor_bound x). lra. Qed.

Lemma interp2_floor (I : Image) (x y fillval : R) :
  interp2 I x y fillval 0 =
  interp2_at I (Zfloor x) (Zfloor y)
    (x - IZR (Zfloor x)) (y - IZR (Zfloor y)) fillval.
Proof.
  destruct (Zfloor_split x), (Zfloor_split y).
  apply interp2_split; assumption.
Qed.

Lemma interp2_defined (I : Image) (x y fillval : R) :
  (1 <= rows I)%Z -> (1 <= cols I)%Z -> 0 <= x -> 0 <= y ->
  exists v, interp2 I x y fillval 0 = Val v.
Proof.
  intros Hr Hc Hx Hy. rewrite interp2_floor.
  apply interp2_at_defined; try assumption;
    apply (Zfloor_lub 0); assumption.
Qed.

(** On the last column, a coordinate above the raster makes the sampler
    index a negative row. *)
Lemma interp2_last_column_above (I : Image) (y fillval : R) :
  (1 <= rows I)%Z -> y < 0 ->
  interp2 I (IZR (cols I - 1)) y fillval 0
  = OutOfRange (Zfloor y) (cols I - 1).
Proof.
  intros Hr Hy. rewrite interp2_floor, ZfloorZ.
  assert (Zfloor y < 0)%Z.
  { pose proof (Zfloor_bound y) as [Hb _].
    apply lt_IZR. lra. }
  unfold interp2_at. ztests.
  all: rewrite Rgt_dec_false by lra.
  all: rewrite at_outside by lia; reflexivity.
Qed.

(** ** Example rasters *)

(** On the last row, a coordinate left of the raster makes the sampler
    index a negative column. *)
Lemma interp2_last_row_left (I : Image) (x fillval : R) :
  (1 <= cols I)%Z -> x < 0 ->
  interp2 I x (IZR (rows I - 1)) fillval 0
  = OutOfRange (rows I - 1) (Zfloor x).
Proof.
  intros Hc Hx. rewrite interp2_floor, ZfloorZ.
  assert (Zfloor x < 0)%Z.
  { pose proof (Zfloor_bound x) as [Hb _].
    apply lt_IZR. lra. }
  unfold interp2_at. ztests.
  all: rewrite Rgt_dec_false by lra.
  all: rewrite at_outside by lia; reflexivity.
Qed.

(** On a raster with a row and a column these are the only reads outside
    it: everywhere else the sampler returns a value. *)
Lemma interp2_value_or_border (I : Image) (x y fillval : R) :
  (1 <= rows I)%Z -> (1 <= cols I)%Z ->
  (exists v, interp2 I x y fillval 0 = Val v) \/
  (interp2 I x y fillval 0 = OutOfRange (Zfloor y) (Zfloor x) /\
   ((Zfloor x = (cols I - 1)%Z /\ (Zfloor y < 0)%Z /\ x = IZR (Zfloor x)) \/
    (Zfloor y = (rows I - 1)%Z /\ (Zfloor x < 0)%Z /\ y = IZR (Zfloor y)))).
Proof.
  intros Hr Hc. rewrite interp2_floor.
  destruct (Zfloor_split x) as [_ Hfx]. destruct (Zfloor_split y) as [_ Hfy].
  set (xi := Zfloor x) in *. set (yi := Zfloor y) in *.
  set (fx := x - IZR xi) in *. set (fy := y - IZR yi) in *.
  unfold interp2_at. ztests;
    repeat match goal with
    | |- context [Rgt_dec ?a ?b] => destruct (Rgt_dec a b)
    end;
    try (left; rewrite ?at_inside by lia; cbn [bind]; unfold ret;
         eexists; reflexivity).
  - right. rewrite at_outside by lia. split; [reflexivity|].
    left. repeat split; try lia. unfold fx in *. lra.
  - right. rewrite at_outside by lia. split; [reflexivity|].
    right. repeat split; try lia. unfold fy in *. lra.
Qed.

(** C2: on the raster 1 2 / 3 4 the coordinate (1, -1), exactly on the last
    column and one row above the raster, makes interp2 index row -1 of
    column 1 instead of returning the fill value. *)
Theorem interp2_reads_negative_row :
  interp2 raster22 1 (-1) 0 0 = OutOfRange (-1) 1.
Proof.
  change 1 with (IZR (cols raster22 - 1)) at 1.
  rewrite interp2_last_column_above; cbn [rows raster22]; try lia; try lra.
  replace (-1) with (- IZR 1) by reflexivity.
  rewrite ZfloorNZ. reflexivity.
Qed.

(** C9: at integer coordinates inside the raster interp2 returns the pixel
    stored there. *)
Theorem interp2_exact_on_pixels (I : Image) (x y : Z) (fillval : R) :
  (1 <= cols I)%Z -> (1 <= rows I)%Z ->
  (0 <= x < cols I)%Z -> (0 <= y < rows I)%Z ->
  interp2 I (IZR x) (IZR y) fillval 0 = Val (pix I y x).
Proof. intros _ _. apply interp2_integer. Qed.

Lemma interp2_exact_on_pixels_witness :
  interp2 raster22 (IZR 1) (IZR 0) 7 0 = Val (pix raster22 0 1).
Proof.
  apply (interp2_exact_on_pixels raster22 1 0 7); cbn [rows cols raster22]; lia.
Defined.

(** ** The border cases of the sampler *)

Lemma interp2_raster22_last_column :
  interp2 raster22 1 (1 / 2) 0 0 = Val 3.
Proof.
  rewrite (interp2_split raster22 _ _ 0 1 0 0 (1 / 2)) by lra.
  unfold interp2_at. cbn [rows cols raster22]. ztests.
  rewrite Rgt_dec_false by lra.
  rewrite !at_inside by (cbn [rows cols raster22]; lia).
  cbn [bind pix raster22]. unfold ret. f_equal.
  change (2 * 0 + 1 + 1)%Z with 2%Z. change (2 * (0 + 1) + 1 + 1)%Z with 4%Z.
  lra.
Qed.

(** C3, as stated, fails: on the raster 1 2 / 3 4 the coordinate (1, 1/2)
    lies on the last column with fractional row part 1/2, and interp2
    returns the blend 3 of the two pixels of that column, not the fill
    value 0. *)
Lemma border_fill_by_other_axis_fails : ~ border_fill_by_other_axis.
Proof.
  intros claim.
  assert (Zfloor (1 / 2) = 0%Z) as Hy by (apply Zfloor_eq; lra).
  specialize (claim raster22 1 (1 / 2) 0).
  rewrite interp2_raster22_last_column in claim.
  assert (Val 3 = Val 0 :> access R) as E.
  { apply claim; cbn [rows cols raster22]; try lia.
    left. rewrite Hy. repeat split; try lia. lra. }
  injection E. lra.
Qed.

(** C3, amended: on the last column and a row between the first and the one
    before the last, interp2 returns the fill value when the fractional
    column part is positive and otherwise blends the two pixels of that
    column with the fractional row part; on the last row and a column between
    the first and the one before the last, it returns the fill value when the
    fractional row part is positive and otherwise blends the two pixels of
    that row with the fractional column part. *)
Theorem interp2_border (I : Image) (x y fillval : R) :
  (1 <= rows I)%Z -> (1 <= cols I)%Z ->
  let xi := Zfloor x in
  let yi := Zfloor y in
  let fx := x - IZR xi in
  let fy := y - IZR yi in
  (xi = (cols I - 1)%Z -> (0 <= yi < rows I - 1)%Z ->
   interp2 I x y fillval 0 =
   if Rgt_dec fx 0 then Val fillval
   else Val ((1 - fy) * pix I yi xi + fy * pix I (yi + 1) xi))
  /\
  (yi = (rows I - 1)%Z -> (0 <= xi < cols I - 1)%Z ->
   interp2 I x y fillval 0 =
   if Rgt_dec fy 0 then Val fillval
   else Val ((1 - fx) * pix I yi xi + fx * pix I yi (xi + 1))).
Proof.
  intros Hr Hc xi yi fx fy. split; intros Hedge Hin;
    rewrite interp2_floor; fold xi yi fx fy; unfold interp2_at; ztests.
  - destruct (Rgt_dec fx 0); [reflexivity|].
    rewrite !at_inside by lia. reflexivity.
  - destruct (Rgt_dec fy 0); [reflexivity|].
    rewrite !at_inside by lia. reflexivity.
Qed.

Lemma interp2_border_witness :
  interp2 raster22 1 (1 / 2) 0 0 =
  if Rgt_dec (1 - IZR (Zfloor 1)) 0 then Val 0
  else Val ((1 - (1 / 2 - IZR (Zfloor (1 / 2))))
            * pix raster22 (Zfloor (1 / 2)) (Zfloor 1)
            + (1 / 2 - IZR (Zfloor (1 / 2)))
              * pix raster22 (Zfloor (1 / 2) + 1) (Zfloor 1)).
Proof.
  assert (Zfloor (1 / 2) = 0%Z) as Hy by (apply Zfloor_eq; lra).
  apply (interp2_border raster22 1 (1 / 2) 0);
    cbn [rows cols raster22]; try lia.
  apply (ZfloorZ 1).
Defined.

(** ** Loops over a list *)

Lemma mapA_pure {A B : Type} (f : A -> access B) (g : A -> B) (l : list A) :
  (forall a, In a l -> f a = Val (g a)) -> mapA f l = Val (map g l).
Proof.
  induction l as [|a l IH]; intros H; cbn [mapA map].
  - reflexivity.
  - rewrite (H a) by (left; reflexivity).
    rewrite IH by (intros b Hb; apply H; right; exact Hb).
    reflexivity.
Qed.

Lemma mapA_defined {A B : Type} (f : A -> access B) (l : list A) :
  (forall a, In a l -> exists b, f a = Val b) -> exists bs, mapA f l = Val bs.
Proof.
  induction l as [|a l IH]; intros H; cbn [mapA].
  - eexists; reflexivity.
  - destruct (H a) as [b Hb]; [left; reflexivity|].
    destruct IH as [bs Hbs]; [intros c Hc; apply H; right; exact Hc|].
    exists (b :: bs). rewrite Hb, Hbs. reflexivity.
Qed.

Lemma mapA_Val {A B : Type} (f : A -> access B) (l : list A) (bs : list B) :
  mapA f l = Val bs -> Forall2 (fun a b => f a = Val b) l bs.
Proof.
  revert bs. induction l as [|a l IH]; intros bs H; cbn [mapA] in H.
  - injection H as <-. constructor.
  - destruct (f a) as [b|] eqn:Hb; cbn [bind] in H; [|discriminate].
    destruct (mapA f l) as [bs'|] eqn:Hbs; cbn [bind] in H; [|discriminate].
    injection H as <-. constructor; [exact Hb | apply IH; reflexivity].
Qed.

Lemma Forall2_nth {A B : Type} (P : A -> B -> Prop) (l : list A) (bs : list B) :
  Forall2 P l bs ->
  length bs = length l /\
  forall k da db, (k < length l)%nat -> P (nth k l da) (nth k bs db).
Proof.
  induction 1 as [|a b l bs Hab _ [IHlen IHnth]]; split.
  - reflexivity.
  - intros k da db Hk. cbn in Hk. lia.
  - cbn [length]. congruence.
  - intros [|k] da db Hk; cbn [nth]; [exact Hab|].
    apply IHnth. cbn in Hk. lia.
Qed.

Lemma nth_concat {A : Type} (n : nat) (ls : list (list A)) (i j : nat) (d : A) :
  Forall (fun l => length l = n) ls -> (i < length ls)%nat -> (j < n)%nat ->
  nth (i * n + j) (concat ls) d = nth j (nth i ls []) d.
Proof.
  intros Hall. revert i. induction Hall as [|l ls Hl _ IH]; intros i Hi Hj.
  - cbn in Hi. lia.
  - cbn [concat]. destruct i as [|i].
    + cbn [Nat.mul Nat.add nth]. apply app_nth1. lia.
    + cbn [nth]. rewrite app_nth2 by (cbn [Nat.mul]; lia).
      replace (S i * n + j - length l)%nat with (i * n + j)%nat
        by (cbn [Nat.mul]; lia).
      apply IH; [cbn in Hi; lia | exact Hj].
Qed.

Lemma length_concat_uniform {A : Type} (n : nat) (ls : list (list A)) :
  Forall (fun l => length l = n) ls ->
  length (concat ls) = (length ls * n)%nat.
Proof.
  induction 1 as [|l ls Hl _ IH]; cbn [concat length Nat.mul].
  - reflexivity.
  - rewrite length_app, IH, Hl. reflexivity.
Qed.

Lemma nth_map_inside {A B : Type} (f : A -> B) (l : list A) (k : nat)
    (da : A) (db : B) :
  (k < length l)%nat -> nth k (map f l) db = f (nth k l da).
Proof.
  intros Hk. rewrite (nth_indep _ db (f da)) by (rewrite length_map; exact Hk).
  apply map_nth.
Qed.

(** ** The loop variables *)

Lemma length_offsets (Radius : nat) :
  length (offsets Radius) = (2 * Radius + 1)%nat.
Proof. unfold offsets. rewrite length_map, length_seq. reflexivity. Qed.

Lemma nth_offsets (Radius k : nat) (d : Z) :
  (k < 2 * Radius + 1)%nat ->
  nth k (offsets Radius) d = (Z.of_nat k - Z.of_nat Radius)%Z.
Proof.
  intros Hk. unfold offsets.
  rewrite (nth_map_inside _ _ _ 0%nat) by (rewrite length_seq; exact Hk).
  rewrite seq_nth by exact Hk. reflexivity.
Qed.

Lemma in_offsets (Radius : nat) (c : Z) :
  In c (offsets Radius) <-> (- Z.of_nat Radius <= c <= Z.of_nat Radius)%Z.
Proof.
  unfold offsets. rewrite in_map_iff. split.
  - intros [k [<- Hk]]. apply in_seq in Hk. lia.
  - intros Hc. exists (Z.to_nat (c + Z.of_nat Radius)). split; [lia|].
    apply in_seq. lia.
Qed.

(** ** The nested loops *)

Lemma forGrid_pure {A : Type} (Radius : nat) (body : Z -> Z -> access A)
    (g : Z -> Z -> A) :
  (forall c r, In c (offsets Radius) -> In r (offsets Radius) ->
     body c r = Val (g c r)) ->
  forGrid Radius body
  = Val (concat (map (fun c => map (g c) (offsets Radius)) (offsets Radius))).
Proof.
  intros H. unfold forGrid.
  rewrite (mapA_pure _ (fun c => map (g c) (offsets Radius))).
  - reflexivity.
  - intros c Hc. apply mapA_pure. intros r Hr. apply H; assumption.
Qed.

Lemma forGrid_defined {A : Type} (Radius : nat) (body : Z -> Z -> access A) :
  (forall c r, In c (offsets Radius) -> In r (offsets Radius) ->
     exists v, body c r = Val v) ->
  exists l, forGrid Radius body = Val l.
Proof.
  intros H. unfold forGrid.
  destruct (mapA_defined
              (fun c => mapA (fun r => body c r) (offsets Radius))
              (offsets Radius)) as [columns Hcols].
  - intros c Hc. apply mapA_defined. intros r Hr. apply H; assumption.
  - rewrite Hcols. eexists; reflexivity.
Qed.

(** What a completed run of the two loops has stored: [(2R+1)^2] entries,
    entry [i * (2R+1) + j] being the value of the body at column offset
    [i - R] and row offset [j - R]. *)
Lemma forGrid_Val {A : Type} (Radius : nat) (body : Z -> Z -> access A)
    (l : list A) :
  forGrid Radius body = Val l ->
  length l = ((2 * Radius + 1) * (2 * Radius + 1))%nat /\
  forall i j d, (i < 2 * Radius + 1)%nat -> (j < 2 * Radius + 1)%nat ->
    body (Z.of_nat i - Z.of_nat Radius)%Z (Z.of_nat j - Z.of_nat Radius)%Z
    = Val (nth (i * (2 * Radius + 1) + j) l d).
Proof.
  unfold forGrid. intros H.
  destruct (mapA _ (offsets Radius)) as [columns|] eqn:Hcols;
    cbn [bind] in H; [|discriminate].
  injection H as <-.
  apply mapA_Val, Forall2_nth in Hcols. destruct Hcols as [Hlen Hnth].
  rewrite length_offsets in Hlen, Hnth.
  assert (forall i, (i < 2 * Radius + 1)%nat ->
            Forall2 (fun r b => body (Z.of_nat i - Z.of_nat Radius)%Z r = Val b)
                    (offsets Radius) (nth i columns [])) as Hcol.
  { intros i Hi. specialize (Hnth i 0%Z [] Hi).
    rewrite nth_offsets in Hnth by exact Hi. apply mapA_Val. exact Hnth. }
  assert (Forall (fun col => length col = (2 * Radius + 1)%nat) columns) as Hall.
  { apply Forall_forall. intros col Hin.
    destruct (In_nth _ _ [] Hin) as [i [Hi <-]].
    rewrite Hlen in Hi. specialize (Hcol i Hi).
    apply Forall2_nth in Hcol. rewrite length_offsets in Hcol. apply Hcol. }
  split.
  - rewrite (length_concat_uniform _ _ Hall), Hlen. reflexivity.
  - intros i j d Hi Hj.
    rewrite (nth_concat _ _ _ _ _ Hall) by (rewrite ?Hlen; assumption).
    specialize (Hcol i Hi). apply Forall2_nth in Hcol.
    destruct Hcol as [_ Hcol]. rewrite length_offsets in Hcol.
    specialize (Hcol j 0%Z d Hj). rewrite nth_offsets in Hcol by exact Hj.
    exact Hcol.
Qed.

(** ** copyFixedPatch *)

Lemma round_integer (z : Z) : round (IZR z) = z.
Proof.
  unfold round. destruct (Rle_dec 0 (IZR z)).
  - apply Zfloor_eq. lra.
  - apply Zceil_eq. lra.
Qed.

(** What [copyFixedPatch] stores when the raster has more than [Radius] rows
    and columns: the lower clamp of both coordinates is [Radius]. *)
Lemma copyFixedPatch_clamp (Radius : nat) (I : Image) (p : R * R) :
  (Z.of_nat Radius < cols I)%Z -> (Z.of_nat Radius < rows I)%Z ->
  copyFixedPatch Radius I p
  = Val (concat (map (fun c => map (fun r =>
           pix I (Z.max (Z.of_nat Radius) (Z.min (round (snd p) + r) (rows I - 1)))
                 (Z.max (Z.of_nat Radius) (Z.min (round (fst p) + c) (cols I - 1))))
         (offsets Radius)) (offsets Radius))).
Proof.
  intros Hc Hr. unfold copyFixedPatch.
  apply (forGrid_pure Radius _ (fun c r =>
           pix I (Z.max (Z.of_nat Radius) (Z.min (round (snd p) + r) (rows I - 1)))
                 (Z.max (Z.of_nat Radius) (Z.min (round (fst p) + c) (cols I - 1))))).
  intros c r _ _. apply at_inside; lia.
Qed.

(** On a raster with no more than [Radius] columns the lower clamp itself
    is outside the raster. *)
Lemma copyFixedPatch_small_raster :
  copyFixedPatch 2 raster22 (0, 0) = OutOfRange 2 2.
Proof.
  unfold copyFixedPatch. cbn [fst snd]. rewrite (round_integer 0).
  reflexivity.
Qed.

(** C6: with radius 2 on the 5x5 raster whose pixel (r, c) holds 10 r + c,
    the patch copied around (0, 0) holds 25 times the pixel of row 2 and
    column 2; clamping into [0, 4] would give the pixel of row 0 and column 0
    as first entry. *)
Theorem copyFixedPatch_clamps_at_radius :
  copyFixedPatch 2 raster55 (0, 0) = Val (repeat (pix raster55 2 2) 25) /\
  pix raster55 2 2 <> pix raster55 0 0.
Proof.
  split.
  - rewrite copyFixedPatch_clamp by (cbn; lia).
    cbn [fst snd]. rewrite (round_integer 0). reflexivity.
  - cbn. lra.
Qed.

(** ** Vectors *)

Lemma dot_comm (u v : list R) : dot u v = dot v u.
Proof.
  revert v. induction u as [|a u IH]; intros [|b v]; cbn [dot];
    try reflexivity.
  rewrite IH. ring.
Qed.

Lemma dot_self_nonneg (v : list R) : 0 <= dot v v.
Proof.
  induction v as [|a v IH]; cbn [dot]; [lra|].
  pose proof (Rle_0_sqr a) as Ha. unfold Rsqr in Ha. lra.
Qed.

Lemma norm_nonneg (v : list R) : 0 <= norm v.
Proof. apply sqrt_pos. Qed.

Lemma norm_norm (v : list R) : norm v * norm v = dot v v.
Proof. apply sqrt_sqrt, dot_self_nonneg. Qed.

Lemma square_le (x y : R) : 0 <= y -> x * x <= y * y -> x <= y.
Proof. intros Hy H. destruct (Rle_dec x y); [assumption | nra]. Qed.

(** Cauchy-Schwarz *)
Lemma dot_square_le (u v : list R) :
  dot u v * dot u v <= dot u u * dot v v.
Proof.
  revert v. induction u as [|a u IH]; intros [|b v]; cbn [dot]; try nra.
  specialize (IH v).
  {
    pose proof (dot_self_nonneg u) as HU.
    pose proof (dot_self_nonneg v) as HV.
    set (D := dot u v) in *. set (U := dot u u) in *. set (V := dot v v) in *.
    assert (2 * (a * b) * D <= a * a * V + b * b * U) as Hmix.
    { assert (0 <= a * a * V + b * b * U) as Hpos by nra.
      assert ((2 * (a * b) * D) * (2 * (a * b) * D)
              <= (a * a * V + b * b * U) * (a * a * V + b * b * U)) as Hsq.
      { assert ((a * b) * (a * b) * (D * D) <= (a * b) * (a * b) * (U * V))
          by (apply Rmult_le_compat_l; [nra | exact IH]).
        pose proof (Rle_0_sqr (a * a * V - b * b * U)) as Hq.
        unfold Rsqr in Hq. lra. }
      apply square_le; assumption. }
    lra. }
Qed.

Lemma dot_ge_opp_norms (u v : list R) : - (norm u * norm v) <= dot u v.
Proof.
  pose proof (dot_square_le u v) as H.
  rewrite <- (norm_norm u), <- (norm_norm v) in H.
  pose proof (norm_nonneg u). pose proof (norm_nonneg v).
  assert (0 <= norm u * norm v) by nra.
  assert (- dot u v <= norm u * norm v); [|lra].
  apply square_le; [assumption | nra].
Qed.

Lemma dot_le_norms (u v : list R) : dot u v <= norm u * norm v.
Proof.
  pose proof (dot_square_le u v) as H.
  rewrite <- (norm_norm u), <- (norm_norm v) in H.
  pose proof (norm_nonneg u). pose proof (norm_nonneg v).
  assert (0 <= norm u * norm v) by nra.
  apply square_le; [assumption | nra].
Qed.

Lemma sum_map_minus (m : R) (l : list R) :
  sum (map (fun v => v - m) l) = sum l - INR (length l) * m.
Proof.
  induction l as [|a l IH].
  - cbn. ring.
  - cbn [map sum fold_right]. fold (sum (map (fun v => v - m) l)).
    fold (sum l). rewrite IH.
    change (length (a :: l)) with (S (length l)). rewrite S_INR. ring.
Qed.

Lemma map_minus_all_equal (v : R) (l : list R) :
  (forall s, In s l -> s = v) ->
  sum l = INR (length l) * v /\
  forall m, dot (map (fun s => s - m) l) (map (fun s => s - m) l)
            = INR (length l) * ((v - m) * (v - m)).
Proof.
  induction l as [|a l IH]; intros H.
  - split; [cbn; ring | intros m; cbn; ring].
  - destruct IH as [IHs IHd]; [intros s Hs; apply H; right; exact Hs|].
    rewrite (H a) by (left; reflexivity).
    change (length (v :: l)) with (S (length l)). rewrite S_INR. split.
    + cbn [sum fold_right]. fold (sum l). rewrite IHs. ring.
    + intros m. cbn [map dot]. rewrite IHd. ring.
Qed.

(** ** ZnccPatch *)

Lemma Dimension_nat (Radius : nat) :
  Dimension Radius = Z.of_nat ((2 * Radius + 1) * (2 * Radius + 1)).
Proof. unfold Dimension. lia. Qed.

Lemma set_Val (Radius : nat) (I : Image) (uv : R * R) (a : ZnccPatch) :
  Zncc.set Radius I uv = Val a <->
  exists samples,
    interpolateFixedPatch Radius I uv 0 0 = Val samples /\
    a = mkZnccPatch
          (map (fun v => v - sum samples / IZR (Dimension Radius)) samples)
          (norm (map (fun v => v - sum samples / IZR (Dimension Radius)) samples)).
Proof.
  unfold Zncc.set. split.
  - destruct (interpolateFixedPatch Radius I uv 0 0) as [samples|];
      cbn [bind]; [|discriminate].
    intros H. injection H as <-. exists samples. split; reflexivity.
  - intros [samples [-> ->]]. reflexivity.
Qed.

Lemma set_norm (Radius : nat) (I : Image) (uv : R * R) (a : ZnccPatch) :
  Zncc.set Radius I uv = Val a -> _norm a = norm (_data a).
Proof. intros H. apply set_Val in H. destruct H as [s [_ ->]]. reflexivity. Qed.

Lemma score_above (a b : ZnccPatch) :
  _norm a * _norm b > 1e-6 ->
  Zncc.score a b = dot (_data a) (_data b) / (_norm a * _norm b).
Proof. intros H. unfold Zncc.score. apply Rgt_dec_true. exact H. Qed.

Lemma score_not_above (a b : ZnccPatch) :
  _norm a * _norm b <= 1e-6 -> Zncc.score a b = -1.
Proof. intros H. unfold Zncc.score. apply Rgt_dec_false. exact H. Qed.

Lemma score_self (a : ZnccPatch) :
  _norm a = norm (_data a) ->
  Zncc.score a a = if Rgt_dec (dot (_data a) (_data a)) 1e-6 then 1 else -1.
Proof.
  intros Hn. unfold Zncc.score. rewrite Hn, norm_norm.
  destruct (Rgt_dec (dot (_data a) (_data a)) 1e-6); [|reflexivity].
  field. lra.
Qed.

(** C10: the score of two patches does not depend on which of the two is
    the receiver. *)
Theorem score_symmetric (a b : ZnccPatch) :
  Zncc.score a b = Zncc.score b a.
Proof.
  unfold Zncc.score.
  rewrite (Rmult_comm (_norm b)), (dot_comm (_data b)). reflexivity.
Qed.

(** ** Patches centred on a pixel *)

Lemma interp2_integer_nonneg (I : Image) (x y : Z) (fillval : R) :
  (1 <= rows I)%Z -> (1 <= cols I)%Z -> (0 <= x)%Z -> (0 <= y)%Z ->
  interp2 I (IZR x) (IZR y) fillval 0 = Val (pixel_or I fillval x y).
Proof.
  intros Hr Hc Hx Hy. unfold pixel_or.
  destruct (Z.ltb_spec x (cols I)); destruct (Z.ltb_spec y (rows I));
    cbn [andb].
  - apply interp2_integer; lia.
  - rewrite (interp2_split I _ _ fillval x y 0 0) by lra.
    unfold interp2_at. ztests; reflexivity.
  - rewrite (interp2_split I _ _ fillval x y 0 0) by lra.
    unfold interp2_at. ztests; reflexivity.
  - rewrite (interp2_split I _ _ fillval x y 0 0) by lra.
    unfold interp2_at. ztests; reflexivity.
Qed.

Lemma interpolate_integer (Radius : nat) (I : Image) (x y : Z) (fillval : R) :
  (1 <= rows I)%Z -> (1 <= cols I)%Z ->
  (Z.of_nat Radius <= x)%Z -> (Z.of_nat Radius <= y)%Z ->
  interpolateFixedPatch Radius I (IZR x, IZR y) fillval 0
  = Val (concat (map (fun c => map (fun r => pixel_or I fillval (x + c) (y + r))
                                   (offsets Radius))
                     (offsets Radius))).
Proof.
  intros Hr Hc Hx Hy. unfold interpolateFixedPatch.
  apply (forGrid_pure Radius _ (fun c r => pixel_or I fillval (x + c) (y + r))).
  intros c r Hin_c Hin_r. apply in_offsets in Hin_c, Hin_r. cbn [fst snd].
  replace (IZR x + 0 + IZR c) with (IZR (x + c)) by (rewrite plus_IZR; ring).
  replace (IZR y + 0 + IZR r) with (IZR (y + r)) by (rewrite plus_IZR; ring).
  apply interp2_integer_nonneg; lia.
Qed.

Lemma samples_bar1 (v : R) :
  interpolateFixedPatch 2 (raster_bar 1 v) (2, 2) 0 0
  = Val ([0; 0; v; 0; 0] ++ zero5 ++ zero5 ++ zero5 ++ zero5).
Proof.
  rewrite (interpolate_integer 2 (raster_bar 1 v) 2 2 0) by (cbn; lia).
  reflexivity.
Qed.

Lemma samples_flat_corner (v : R) :
  interpolateFixedPatch 2 (raster_flat 5 v) (4, 4) 0 0
  = Val ([v; v; v; 0; 0] ++ [v; v; v; 0; 0] ++ [v; v; v; 0; 0]
         ++ zero5 ++ zero5).
Proof.
  rewrite (interpolate_integer 2 (raster_flat 5 v) 4 4 0) by (cbn; lia).
  reflexivity.
Qed.

Lemma set_patch_of (Radius : nat) (I : Image) (uv : R * R) (samples : list R) :
  interpolateFixedPatch Radius I uv 0 0 = Val samples ->
  Zncc.set Radius I uv = Val (patch_of Radius samples).
Proof. intros H. apply set_Val. exists samples. split; [exact H | reflexivity]. Qed.

Ltac patch_arith :=
  cbv [patch_bar1 patch_flat_corner patch_of _data _norm zero5
       app map sum fold_right dot];
  change (IZR (Dimension 2)) with 25; try field; try lra.

Lemma dot_patch_bar1 (v w : R) :
  dot (_data (patch_bar1 v)) (_data (patch_bar1 w)) = 24 / 25 * (v * w).
Proof. patch_arith. Qed.

Lemma dot_patch_flat_corner (v : R) :
  dot (_data (patch_flat_corner v)) (_data (patch_flat_corner v))
  = 144 / 25 * (v * v).
Proof. patch_arith. Qed.

Lemma norm_patch_of (Radius : nat) (samples : list R) :
  _norm (patch_of Radius samples) = norm (_data (patch_of Radius samples)).
Proof. reflexivity. Qed.

(** ** The score of a patch with itself *)

Lemma set_raster_bar1 (v : R) :
  Zncc.set 2 (raster_bar 1 v) (2, 2) = Val (patch_bar1 v).
Proof. apply set_patch_of, samples_bar1. Qed.

Lemma set_raster_flat_corner (v : R) :
  Zncc.set 2 (raster_flat 5 v) (4, 4) = Val (patch_flat_corner v).
Proof. apply set_patch_of, samples_flat_corner. Qed.

(** C4, as stated, fails: the 5x5 raster that is zero except for one pixel
    holding 1/1000 gives, around (2, 2), a patch of positive norm whose
    squared norm 0.96e-6 does not exceed 1e-6, and its self-score is -1. *)
Lemma self_score_one_if_norm_positive_fails :
  ~ self_score_one_if_norm_positive.
Proof.
  intros claim.
  specialize (claim 2%nat (raster_bar 1 (1 / 1000)) (2, 2)
                    (patch_bar1 (1 / 1000)) (set_raster_bar1 _)).
  assert (dot (_data (patch_bar1 (1 / 1000))) (_data (patch_bar1 (1 / 1000)))
          = 96 / 100000000) as Hdot by (rewrite dot_patch_bar1; lra).
  rewrite score_self in claim by apply norm_patch_of.
  rewrite Hdot in claim. rewrite Rgt_dec_false in claim by lra.
  assert (-1 = 1); [|lra].
  apply claim. unfold patch_bar1. rewrite norm_patch_of.
  fold (patch_bar1 (1 / 1000)). unfold norm. rewrite Hdot.
  apply sqrt_lt_R0. lra.
Qed.

(** C4, amended: a patch produced by set has self-score 1 when its squared
    cached norm exceeds 1e-6, and self-score -1 when it does not, positive
    norm or not (exact arithmetic). *)
Theorem self_score_one (Radius : nat) (I : Image) (uv : R * R) (a : ZnccPatch) :
  Zncc.set Radius I uv = Val a ->
  (_norm a * _norm a > 1e-6 -> Zncc.score a a = 1) /\
  (_norm a * _norm a <= 1e-6 -> Zncc.score a a = -1).
Proof.
  intros Hset. split; intros Hd.
  - rewrite score_above by exact Hd.
    rewrite (set_norm _ _ _ _ Hset) in *. rewrite norm_norm in *.
    field. lra.
  - apply score_not_above. exact Hd.
Qed.

Lemma self_score_one_witness :
  Zncc.score (patch_bar1 1) (patch_bar1 1) = 1 /\
  Zncc.score (patch_bar1 (1 / 1000)) (patch_bar1 (1 / 1000)) = -1.
Proof.
  split.
  - apply (self_score_one 2 (raster_bar 1 1) (2, 2) (patch_bar1 1)).
    + apply set_raster_bar1.
    + unfold patch_bar1. rewrite norm_patch_of. fold (patch_bar1 1).
      rewrite norm_norm, dot_patch_bar1. lra.
  - apply (self_score_one 2 (raster_bar 1 (1 / 1000)) (2, 2)
             (patch_bar1 (1 / 1000))).
    + apply set_raster_bar1.
    + unfold patch_bar1. rewrite norm_patch_of. fold (patch_bar1 (1 / 1000)).
      rewrite norm_norm, dot_patch_bar1. lra.
Defined.

(** ** The score of two patches *)

(** C5, as stated, fails: the 5x5 raster holding 1 everywhere has no
    variance, but around its corner (4, 4) the grid leaves the raster and the
    patch mixes the pixels with the fill value 0; its self-score is 1 and
    not -1. *)
Lemma flat_raster_scores_sentinel_fails : ~ flat_raster_scores_sentinel.
Proof.
  intros claim.
  specialize (claim 2%nat (raster_flat 5 1) (4, 4) 1
                    (patch_flat_corner 1) (patch_flat_corner 1)).
  rewrite score_self in claim by apply norm_patch_of.
  rewrite dot_patch_flat_corner in claim.
  rewrite Rgt_dec_true in claim by lra.
  assert (1 = -1); [|lra].
  apply claim.
  - intros r c _ _. reflexivity.
  - apply set_raster_flat_corner.
Qed.

(** In exact arithmetic the sentinel is a value of valid correlations too:
    a patch and the patch of the negated raster have norm product 0.96 and
    score -1. *)
Lemma score_opposite_patches :
  _norm (patch_bar1 1) * _norm (patch_bar1 (-1)) > 1e-6 /\
  Zncc.score (patch_bar1 1) (patch_bar1 (-1)) = -1.
Proof.
  assert (_norm (patch_bar1 (-1)) = _norm (patch_bar1 1)) as Hn.
  { unfold patch_bar1. rewrite !norm_patch_of.
    fold (patch_bar1 1). fold (patch_bar1 (-1)). unfold norm.
    rewrite !dot_patch_bar1. f_equal. lra. }
  assert (_norm (patch_bar1 1) * _norm (patch_bar1 1) = 24 / 25) as Hd.
  { unfold patch_bar1. rewrite norm_patch_of. fold (patch_bar1 1).
    rewrite norm_norm, dot_patch_bar1. lra. }
  rewrite Hn. split; [lra|].
  rewrite score_above by (rewrite Hn; lra).
  rewrite Hn, Hd, dot_patch_bar1. lra.
Qed.

Lemma score_bounds (a b : ZnccPatch) :
  _norm a = norm (_data a) -> _norm b = norm (_data b) ->
  -1 <= Zncc.score a b <= 1.
Proof.
  intros Ha Hb. unfold Zncc.score.
  destruct (Rgt_dec (_norm a * _norm b) 1e-6) as [Hd|Hd]; [|lra].
  pose proof (dot_ge_opp_norms (_data a) (_data b)) as Hlo.
  pose proof (dot_le_norms (_data a) (_data b)) as Hhi.
  rewrite <- Ha, <- Hb in Hlo, Hhi.
  set (d := _norm a * _norm b) in *.
  assert (0 < d) by lra.
  split.
  - apply (Rmult_le_reg_r d); [assumption|].
    unfold Rdiv. rewrite Rmult_assoc, Rinv_l by lra. lra.
  - apply (Rmult_le_reg_r d); [assumption|].
    unfold Rdiv. rewrite Rmult_assoc, Rinv_l by lra. lra.
Qed.

Lemma length_samples (Radius : nat) (I : Image) (uv : R * R) (fillval : R)
    (samples : list R) :
  interpolateFixedPatch Radius I uv fillval 0 = Val samples ->
  IZR (Dimension Radius) = INR (length samples).
Proof.
  intros H. unfold interpolateFixedPatch in H.
  apply forGrid_Val in H. destruct H as [-> _].
  rewrite Dimension_nat, <- INR_IZR_INZ. reflexivity.
Qed.

Lemma Dimension_positive (Radius : nat) : 0 < IZR (Dimension Radius).
Proof. apply IZR_lt. unfold Dimension. nia. Qed.

(** Equal samples give the zero vector and the norm zero. *)
Lemma set_equal_samples (Radius : nat) (I : Image) (uv : R * R)
    (samples : list R) (v : R) (a : ZnccPatch) :
  interpolateFixedPatch Radius I uv 0 0 = Val samples ->
  (forall s, In s samples -> s = v) ->
  Zncc.set Radius I uv = Val a ->
  _norm a = 0.
Proof.
  intros Hs Hall Hset. apply set_Val in Hset.
  destruct Hset as [samples' [Hs' ->]].
  rewrite Hs in Hs'. injection Hs' as <-. cbn [_norm].
  destruct (map_minus_all_equal v samples Hall) as [Hsum Hdot].
  unfold norm. rewrite Hdot, Hsum, (length_samples _ _ _ _ _ Hs).
  assert (0 < INR (length samples)) as Hpos
    by (rewrite <- (length_samples _ _ _ _ _ Hs); apply Dimension_positive).
  replace (INR (length samples) * v / INR (length samples)) with v
    by (field; lra).
  replace (INR (length samples) * ((v - v) * (v - v))) with 0 by ring.
  apply sqrt_0.
Qed.

Lemma interp2_flat_inside (I : Image) (x y fillval v : R) :
  flat I v ->
  (0 <= Zfloor x < cols I - 1)%Z -> (0 <= Zfloor y < rows I - 1)%Z ->
  interp2 I x y fillval 0 = Val v.
Proof.
  intros Hflat Hx Hy. rewrite interp2_floor. unfold interp2_at. ztests.
  rewrite !at_inside by lia. rewrite !Hflat by lia.
  cbn [bind]. unfold ret. f_equal. ring.
Qed.

Lemma in_concat_constant {A B : Type} (v : B) (l l' : list A) (s : B) :
  In s (concat (map (fun _ => map (fun _ => v) l') l)) -> s = v.
Proof.
  intros H. apply in_concat in H. destruct H as [col [Hcol Hs]].
  apply in_map_iff in Hcol. destruct Hcol as [_ [<- _]].
  apply in_map_iff in Hs. destruct Hs as [_ [<- _]]. reflexivity.
Qed.

(** A grid that stays off the borders of a raster without variance samples
    the value of its pixels everywhere. *)
Lemma samples_flat_inside (Radius : nat) (I : Image) (uv : R * R) (v : R) :
  flat I v ->
  (Z.of_nat Radius <= Zfloor (fst uv))%Z ->
  (Zfloor (fst uv) + Z.of_nat Radius < cols I - 1)%Z ->
  (Z.of_nat Radius <= Zfloor (snd uv))%Z ->
  (Zfloor (snd uv) + Z.of_nat Radius < rows I - 1)%Z ->
  exists samples,
    interpolateFixedPatch Radius I uv 0 0 = Val samples /\
    forall s, In s samples -> s = v.
Proof.
  intros Hflat Hx0 Hx1 Hy0 Hy1. eexists. split.
  - unfold interpolateFixedPatch.
    apply (forGrid_pure Radius _ (fun _ _ => v)).
    intros c r Hin_c Hin_r. apply in_offsets in Hin_c, Hin_r.
    apply interp2_flat_inside; [exact Hflat | |];
      rewrite Rplus_0_r, Zfloor_addz; lia.
  - intros s. apply in_concat_constant.
Qed.

(** C5, amended, in exact arithmetic: score returns the dot product of the
    two data vectors divided by the product of the cached norms when that
    product exceeds 1e-6, and -1 when it does not; no score of two patches
    whose cached norms are the norms of their data is below -1 or above 1,
    and -1 is also the score of two patches built by set whose norm product
    exceeds 1e-6; a patch whose sampled values are all equal, as they are on
    a raster without variance when the grid stays off its borders, scores -1
    against every patch. *)
Theorem score_spec (a b : ZnccPatch) :
  let d := _norm a * _norm b in
  (d > 1e-6 -> Zncc.score a b = dot (_data a) (_data b) / d) /\
  (d <= 1e-6 -> Zncc.score a b = -1) /\
  (_norm a = norm (_data a) -> _norm b = norm (_data b) ->
   -1 <= Zncc.score a b <= 1) /\
  (forall Radius I uv samples v,
     interpolateFixedPatch Radius I uv 0 0 = Val samples ->
     (forall s, In s samples -> s = v) ->
     Zncc.set Radius I uv = Val a ->
     Zncc.score a b = -1) /\
  (forall Radius I uv v,
     flat I v ->
     (Z.of_nat Radius <= Zfloor (fst uv))%Z ->
     (Zfloor (fst uv) + Z.of_nat Radius < cols I - 1)%Z ->
     (Z.of_nat Radius <= Zfloor (snd uv))%Z ->
     (Zfloor (snd uv) + Z.of_nat Radius < rows I - 1)%Z ->
     Zncc.set Radius I uv = Val a ->
     Zncc.score a b = -1) /\
  (exists (I I' : Image) (uv : R * R) (a' b' : ZnccPatch),
     Zncc.set 2 I uv = Val a' /\ Zncc.set 2 I' uv = Val b' /\
     _norm a' * _norm b' > 1e-6 /\ Zncc.score a' b' = -1).
Proof.
  intros d.
  assert (forall Radius I uv samples v,
            interpolateFixedPatch Radius I uv 0 0 = Val samples ->
            (forall s, In s samples -> s = v) ->
            Zncc.set Radius I uv = Val a ->
            Zncc.score a b = -1) as Hequal.
  { intros Radius I uv samples v Hs Hall Hset.
    apply score_not_above.
    rewrite (set_equal_samples _ _ _ _ _ _ Hs Hall Hset). lra. }
  repeat split.
  - apply score_above.
  - apply score_not_above.
  - apply score_bounds; assumption.
  - apply score_bounds; assumption.
  - exact Hequal.
  - intros Radius I uv v Hflat Hx0 Hx1 Hy0 Hy1 Hset.
    destruct (samples_flat_inside Radius I uv v Hflat Hx0 Hx1 Hy0 Hy1)
      as [samples [Hs Hall]].
    exact (Hequal _ _ _ _ _ Hs Hall Hset).
  - exists (raster_bar 1 1), (raster_bar 1 (-1)), (2, 2),
      (patch_bar1 1), (patch_bar1 (-1)).
    destruct score_opposite_patches as [Hd Hscore].
    repeat split; try assumption; apply set_raster_bar1.
Qed.

Lemma samples_flat_middle (v : R) :
  interpolateFixedPatch 2 (raster_flat 6 v) (2, 2) 0 0 = Val (repeat v 25).
Proof.
  rewrite (interpolate_integer 2 (raster_flat 6 v) 2 2 0) by (cbn; lia).
  reflexivity.
Qed.

Lemma score_spec_witness :
  Zncc.score (patch_bar1 1) (patch_bar1 1)
  = dot (_data (patch_bar1 1)) (_data (patch_bar1 1))
    / (_norm (patch_bar1 1) * _norm (patch_bar1 1)) /\
  Zncc.score (patch_flat 1) (patch_bar1 1) = -1.
Proof.
  split.
  - apply (score_spec (patch_bar1 1) (patch_bar1 1)).
    unfold patch_bar1. rewrite norm_patch_of. fold (patch_bar1 1).
    rewrite norm_norm, dot_patch_bar1. lra.
  - apply (score_spec (patch_flat 1) (patch_bar1 1)) with
      (Radius := 2%nat) (I := raster_flat 6 1) (uv := (2, 2)) (v := 1).
    + intros r c _ _. reflexivity.
    + cbn [fst]. rewrite (ZfloorZ 2). cbn. lia.
    + cbn [fst]. rewrite (ZfloorZ 2). cbn. lia.
    + cbn [snd]. rewrite (ZfloorZ 2). cbn. lia.
    + cbn [snd]. rewrite (ZfloorZ 2). cbn. lia.
    + apply set_patch_of, samples_flat_middle.
Defined.

(** ** What set stores *)

(** C8: when no sample of the grid indexes outside the raster, set returns
    a patch whose data vector has (2R+1)^2 entries; they are the samples
    interp2 takes with fill value 0 on the grid around uv, column after
    column, each minus the mean of all samples; the entries sum to zero; the
    cached norm is the square root of the sum of their squares and is not
    negative. *)
Theorem set_spec (Radius : nat) (I : Image) (uv : R * R) :
  (forall c r, In c (offsets Radius) -> In r (offsets Radius) ->
     exists s, interp2 I (fst uv + IZR c) (snd uv + IZR r) 0 0 = Val s) ->
  let n := (2 * Radius + 1)%nat in
  exists (a : ZnccPatch) (samples : list R),
    Zncc.set Radius I uv = Val a /\
    length samples = (n * n)%nat /\
    length (_data a) = (n * n)%nat /\
    (forall i j, (i < n)%nat -> (j < n)%nat ->
       interp2 I (fst uv + IZR (Z.of_nat i - Z.of_nat Radius))
                 (snd uv + IZR (Z.of_nat j - Z.of_nat Radius)) 0 0
       = Val (nth (i * n + j) samples 0)) /\
    (forall k, (k < n * n)%nat ->
       nth k (_data a) 0 = nth k samples 0 - sum samples / INR (n * n)) /\
    sum (_data a) = 0 /\
    _norm a = sqrt (dot (_data a) (_data a)) /\
    0 <= _norm a.
Proof.
  intros Hdef n.
  destruct (forGrid_defined Radius
              (fun c r => interp2 I (fst uv + 0 + IZR c) (snd uv + 0 + IZR r) 0 0))
    as [samples Hs].
  { intros c r Hc Hr. rewrite !Rplus_0_r. apply Hdef; assumption. }
  fold (interpolateFixedPatch Radius I uv 0 0) in Hs.
  pose proof (length_samples _ _ _ _ _ Hs) as Hdim.
  pose proof (Dimension_positive Radius) as Hpos.
  pose proof Hs as Hgrid. unfold interpolateFixedPatch in Hgrid.
  apply forGrid_Val in Hgrid. destruct Hgrid as [Hlen Hnth]. fold n in Hlen, Hnth.
  exists (patch_of Radius samples), samples.
  unfold patch_of. cbn [_data _norm]. rewrite Hdim.
  repeat split.
  - rewrite <- Hdim. apply set_patch_of. exact Hs.
  - exact Hlen.
  - rewrite length_map. exact Hlen.
  - intros i j Hi Hj. specialize (Hnth i j 0 Hi Hj).
    rewrite !Rplus_0_r in Hnth. exact Hnth.
  - intros k Hk. rewrite (nth_map_inside _ _ _ 0) by lia.
    rewrite Hlen. reflexivity.
  - rewrite sum_map_minus. field. lra.
  - apply norm_nonneg.
Qed.

Lemma set_spec_witness :
  exists (a : ZnccPatch) (samples : list R),
    Zncc.set 2 (raster_bar 1 1) (2, 2) = Val a /\
    length samples = 25%nat /\
    length (_data a) = 25%nat /\
    (forall i j, (i < 5)%nat -> (j < 5)%nat ->
       interp2 (raster_bar 1 1) (2 + IZR (Z.of_nat i - 2))
                 (2 + IZR (Z.of_nat j - 2)) 0 0
       = Val (nth (i * 5 + j) samples 0)) /\
    (forall k, (k < 25)%nat ->
       nth k (_data a) 0 = nth k samples 0 - sum samples / INR 25) /\
    sum (_data a) = 0 /\
    _norm a = sqrt (dot (_data a) (_data a)) /\
    0 <= _norm a.
Proof.
  apply (set_spec 2 (raster_bar 1 1) (2, 2)).
  intros c r Hc Hr. apply in_offsets in Hc, Hr. cbn [fst snd].
  apply interp2_defined; cbn [rows cols raster_bar]; try lia.
  - destruct Hc as [Hc _]. apply IZR_le in Hc. cbn in Hc. lra.
  - destruct Hr as [Hr _]. apply IZR_le in Hr. cbn in Hr. lra.
Defined.

(** ** The visibility list of a scene point *)

Lemma step_visibility (ok : ScenePoint -> N -> Prop) (p p' : ScenePoint) :
  SP.step ok p p' ->
  _f p' = _f p \/ exists f, ok p f /\ _f p' = _f p ++ [f].
Proof.
  intros Hstep. destruct Hstep as [p f Hok | | p I x p' Hset | | | | ];
    try (left; reflexivity).
  - right. exists f. split; [exact Hok | reflexivity].
  - left. unfold SP.setZnccPach in Hset.
    destruct (Zncc.set 2 I x); cbn [bind] in Hset; [|discriminate].
    injection Hset as <-. reflexivity.
Qed.

Lemma reachable_front (ok : ScenePoint -> N -> Prop) (X : Vec3) (f_id : N)
    (p : ScenePoint) :
  SP.reachable ok X f_id p ->
  (1 <= length (_f p))%nat /\ SP.refFrameId p = Some f_id.
Proof.
  unfold SP.refFrameId.
  induction 1 as [|p p' _ [IHlen IHhd] Hstep].
  - split; [cbn; lia | reflexivity].
  - destruct (step_visibility _ _ _ Hstep) as [-> | [f [_ ->]]].
    + split; assumption.
    + destruct (_f p) as [|g l]; [discriminate|].
      split; [cbn; lia | exact IHhd].
Qed.

Lemma sorted_snoc (l : list N) (m f : N) :
  StronglySorted N.lt l -> hd_error (rev l) = Some m -> (m < f)%N ->
  StronglySorted N.lt (l ++ [f]).
Proof.
  intros Hsorted. revert m.
  induction Hsorted as [|a l Hl IH Ha]; intros m Hlast Hlt.
  - discriminate.
  - cbn [app]. destruct l as [|b l].
    + cbn in Hlast. injection Hlast as ->.
      repeat constructor. exact Hlt.
    + assert (hd_error (rev (b :: l)) = Some m) as Hlast'.
      { cbn [rev] in Hlast |- *.
        destruct (rev l ++ [b]) as [|c t] eqn:E.
        - destruct (rev l); discriminate.
        - exact Hlast. }
      assert (In m (b :: l)) as Hin.
      { apply in_rev. destruct (rev (b :: l)); [discriminate|].
        injection Hlast' as ->. left. reflexivity. }
      constructor.
      * exact (IH m Hlast' Hlt).
      * apply Forall_app. split; [exact Ha|].
        constructor; [|constructor].
        rewrite Forall_forall in Ha. specialize (Ha m Hin). lia.
Qed.

Lemma sorted_NoDup (l : list N) : StronglySorted N.lt l -> NoDup l.
Proof.
  induction 1 as [|a l _ IH Ha]; constructor.
  - intros Hin. rewrite Forall_forall in Ha. specialize (Ha a Hin). lia.
  - exact IH.
Qed.

Lemma reachable_sorted (X : Vec3) (f_id : N) (p : ScenePoint) :
  SP.reachable SP.later_frame X f_id p -> StronglySorted N.lt (_f p).
Proof.
  induction 1 as [|p p' Hreach IH Hstep].
  - cbn. repeat constructor.
  - destruct (step_visibility _ _ _ Hstep) as [-> | [f [Hok ->]]].
    + exact IH.
    + destruct (reachable_front _ _ _ _ Hreach) as [Hlen _].
      unfold SP.later_frame, SP.lastFrameId in Hok.
      destruct (hd_error (rev (_f p))) as [m|] eqn:Hlast.
      * apply (sorted_snoc _ m); [exact IH | exact Hlast | apply Hok; reflexivity].
      * destruct (_f p) as [|g l]; [cbn in Hlen; lia|].
        cbn [rev] in Hlast. destruct (rev l); discriminate.
Qed.

(** X22: after any sequence of member calls the visibility list of a scene
    point has at least one element and its first element is the reference
    frame id given at creation; when every call of addFrame passes a frame
    id above the last one of the list, the list is also strictly increasing
    and without repetition.  ScenePoint does not check the frame id itself:
    the order is the caller's. *)
Theorem visibility_list_invariant (X : Vec3) (f_id : N) (p : ScenePoint) :
  (SP.reachable SP.any_frame X f_id p ->
   (1 <= length (_f p))%nat /\ SP.refFrameId p = Some f_id) /\
  (SP.reachable SP.later_frame X f_id p ->
   (1 <= length (_f p))%nat /\ SP.refFrameId p = Some f_id /\
   StronglySorted N.lt (_f p) /\ NoDup (_f p)).
Proof.
  split; intros Hreach.
  - exact (reachable_front _ _ _ _ Hreach).
  - destruct (reachable_front _ _ _ _ Hreach) as [Hlen Hfront].
    pose proof (reachable_sorted _ _ _ Hreach) as Hsorted.
    repeat split; try assumption. apply sorted_NoDup. exact Hsorted.
Qed.

Lemma visibility_list_invariant_witness :
  (1 <= length (_f (SP.addFrame (SP.new origin 5%N) 7%N)))%nat /\
  SP.refFrameId (SP.addFrame (SP.new origin 5%N) 7%N) = Some 5%N /\
  StronglySorted N.lt (_f (SP.addFrame (SP.new origin 5%N) 7%N)) /\
  NoDup (_f (SP.addFrame (SP.new origin 5%N) 7%N)).
Proof.
  apply (visibility_list_invariant origin 5%N).
  apply (SP.reach_step _ _ _ (SP.new origin 5%N)).
  - apply SP.reach_new.
  - apply SP.step_addFrame. intros l Hl. cbn in Hl. injection Hl as <-. lia.
Defined.

(** ** The per-frame call *)

(** C1, as stated, fails: on an engine for 2x2 images, the call with a 2x2
    image, a 2x2 depth raster and the identity pose returns without an error
    and without storing anything into the result. *)
Lemma addFrame_contract_fails : ~ addFrame_contract.
Proof.
  intros claim.
  destruct (claim unit unit (newBundle tt (mkImageSize 2 2) tt)
                  [0; 0; 0; 0]%Z [1; 1; 1; 1] identity44)
    as [[_ [Hin _]] | [_ [Hfail _]]].
  - cbn in Hin. exact Hin.
  - cbn in Hfail. discriminate Hfail.
Qed.

(** C1, amended: every call of addFrame returns without an error, stores
    nothing into the result and leaves the engine, its scene points
    included, as it was. *)
Theorem addFrame_inert (Calibration Options : Type)
    (this : PhotometricBundleAdjustment Calibration Options)
    (I_ptr : list Z) (Z_ptr : list R) (T : Mat44) :
  let e := addFrame this I_ptr Z_ptr T in
  outcome e = Returned /\ stores e = [] /\ after e = this /\
  _scene_points (after e) = _scene_points this.
Proof. cbn. repeat split. Qed.

(** * Further properties of the sampler *)

Lemma at_Val (I : Image) (r c : Z) (v : R) :
  at_ I r c = Val v ->
  (0 <= r < rows I)%Z /\ (0 <= c < cols I)%Z /\ v = pix I r c.
Proof.
  unfold at_.
  destruct (Z.leb_spec 0 r), (Z.ltb_spec r (rows I)),
    (Z.leb_spec 0 c), (Z.ltb_spec c (cols I)); cbn [andb];
    intros Hv; try discriminate.
  injection Hv as <-. repeat split; assumption.
Qed.

Lemma blend_between (t a b lo hi : R) :
  0 <= t <= 1 -> lo <= a <= hi -> lo <= b <= hi ->
  lo <= (1 - t) * a + t * b <= hi.
Proof. intros Ht Ha Hb. split; nra. Qed.

(** Name the integer and fractional parts of a coordinate pair and rewrite
    the sampler with them. *)
Ltac split_coordinates x y xi yi fx fy :=
  rewrite (interp2_floor _ x y);
  let Hfx := fresh "Hfx" in let Hfy := fresh "Hfy" in
  let Ex := fresh "Ex" in let Ey := fresh "Ey" in
  destruct (Zfloor_split x) as [_ Hfx]; destruct (Zfloor_split y) as [_ Hfy];
  remember (Zfloor x) as xi eqn:Ex; remember (Zfloor y) as yi eqn:Ey;
  remember (x - IZR xi) as fx; remember (y - IZR yi) as fy;
  clear Ex Ey.

(** Integer equations as equations of reals, for [lra]. *)
Ltac real_equations :=
  repeat match goal with
  | e : @eq Z _ _ |- _ => apply (f_equal IZR) in e
  end.

Lemma int_coordinate_between (v : R) (z : Z) :
  IZR z <= v < IZR z + 1 -> fits_int z -> int_coordinate v.
Proof.
  intros Hv Hz. unfold int_coordinate. rewrite (Zfloor_eq z v Hv). exact Hz.
Qed.

Lemma int_coordinate_IZR (z : Z) : fits_int z -> int_coordinate (IZR z).
Proof. apply int_coordinate_between. lra. Qed.

Lemma int_sized_small (I : Image) :
  (0 <= rows I <= 1000)%Z -> (0 <= cols I <= 1000)%Z -> int_sized I.
Proof. unfold int_sized, fits_int, INT_MIN, INT_MAX. lia. Qed.

Lemma fits_int_small (z : Z) : (-1000 <= z <= 1000)%Z -> fits_int z.
Proof. unfold fits_int, INT_MIN, INT_MAX. lia. Qed.

(** X1: on a raster whose dimensions fit an int, a coordinate whose integer
    parts fit an int and that is past the last column or past the last row,
    or left of the raster and not exactly on the last row, or above the
    raster and not exactly on the last column, gives the fill value. *)
Theorem interp2_outside (I : Image) (x y fillval : R) :
  (1 <= rows I)%Z -> (1 <= cols I)%Z ->
  int_sized I -> int_coordinate x -> int_coordinate y ->
  (cols I <= Zfloor x)%Z \/ (rows I <= Zfloor y)%Z \/
  (x < 0 /\ y <> IZR (rows I - 1)) \/ (y < 0 /\ x <> IZR (cols I - 1)) ->
  interp2 I x y fillval 0 = Val fillval.
Proof.
  intros Hr Hc _ _ _ Hout.
  assert (x < 0 -> (Zfloor x < 0)%Z) as Hnegx
    by (intros; pose proof (Zfloor_bound x); apply lt_IZR; lra).
  assert (y < 0 -> (Zfloor y < 0)%Z) as Hnegy
    by (intros; pose proof (Zfloor_bound y); apply lt_IZR; lra).
  split_coordinates x y xi yi fx fy.
  unfold interp2_at.
  destruct Hout as [Ho | [Ho | [[Ho Ho'] | [Ho Ho']]]].
  - ztests; reflexivity.
  - ztests; reflexivity.
  - specialize (Hnegx Ho). ztests; try reflexivity.
    all: rewrite Rgt_dec_true; [reflexivity|].
    all: real_equations; assert (fy <> 0) by (intros E; apply Ho'; lra); lra.
  - specialize (Hnegy Ho). ztests; try reflexivity.
    all: rewrite Rgt_dec_true; [reflexivity|].
    all: real_equations; assert (fx <> 0) by (intros E; apply Ho'; lra); lra.
Qed.

Lemma interp2_outside_witness :
  interp2 raster22 (-1) (-1) 7 0 = Val 7.
Proof.
  apply (interp2_outside raster22 (-1) (-1) 7); cbn [rows cols raster22];
    try lia.
  - apply int_sized_small; cbn [rows cols raster22]; lia.
  - apply (int_coordinate_IZR (-1)), fits_int_small. lia.
  - apply (int_coordinate_IZR (-1)), fits_int_small. lia.
  - right. right. left. change (2 - 1)%Z with 1%Z. split; lra.
Defined.

(** X2: strictly between the last column and the one after it, or strictly
    between the last row and the one after it, interp2 gives the fill value
    whatever the other coordinate is. *)
Theorem interp2_past_last_pixel (I : Image) (x y fillval : R) :
  (Zfloor x = (cols I - 1)%Z /\ x <> IZR (cols I - 1)) \/
  (Zfloor y = (rows I - 1)%Z /\ y <> IZR (rows I - 1)) ->
  interp2 I x y fillval 0 = Val fillval.
Proof.
  intros Hpast.
  split_coordinates x y xi yi fx fy.
  unfold interp2_at.
  destruct Hpast as [[E Hne] | [E Hne]].
  - assert (fx > 0) as Hpos by (rewrite <- E in Hne; lra).
    ztests; rewrite ?(Rgt_dec_true fx) by exact Hpos; reflexivity.
  - assert (fy > 0) as Hpos by (rewrite <- E in Hne; lra).
    ztests; rewrite ?(Rgt_dec_true fy) by exact Hpos;
      try reflexivity.
    all: destruct (Rgt_dec fx 0); reflexivity.
Qed.

Lemma interp2_past_last_pixel_witness :
  interp2 raster22 (3 / 2) 0 7 0 = Val 7.
Proof.
  apply (interp2_past_last_pixel raster22 (3 / 2) 0 7).
  left. cbn [cols raster22]. change (2 - 1)%Z with 1%Z. split.
  - apply Zfloor_eq. lra.
  - lra.
Defined.

(** X3: when every pixel of the raster and the fill value lie between [lo]
    and [hi], so does every value interp2 returns. *)
Theorem interp2_between (I : Image) (x y fillval lo hi v : R) :
  (forall r c, (0 <= r < rows I)%Z -> (0 <= c < cols I)%Z ->
     lo <= pix I r c <= hi) ->
  lo <= fillval <= hi ->
  interp2 I x y fillval 0 = Val v ->
  lo <= v <= hi.
Proof.
  intros Hpix Hfill.
  split_coordinates x y xi yi fx fy.
  unfold interp2_at. ztests;
    repeat match goal with
    | |- context [Rgt_dec ?a ?b] => destruct (Rgt_dec a b)
    end;
    repeat match goal with
    | |- context [at_ I ?r ?c] =>
        let E := fresh "E" in
        destruct (at_ I r c) eqn:E; cbn [bind];
        [apply at_Val in E; destruct E as [? [? ->]] | discriminate]
    end;
    unfold ret; intros Hv; injection Hv as <-;
    try exact Hfill; try (apply Hpix; assumption);
    rewrite ?(Rmult_comm (pix I yi xi) (1 - fx)),
      ?(Rmult_comm (pix I yi (xi + 1)) fx),
      ?(Rmult_comm (pix I (yi + 1) xi) (1 - fx)),
      ?(Rmult_comm (pix I (yi + 1) (xi + 1)) fx);
    repeat (apply blend_between; [lra | |]);
    apply Hpix; assumption.
Qed.

Lemma interp2_between_witness :
  0 <= 3 <= 4.
Proof.
  apply (interp2_between raster22 1 (1 / 2) 0 0 4 3).
  - intros r c Hr Hc. cbn [rows cols raster22 pix] in *.
    assert (0 <= 2 * r + c + 1 <= 4)%Z as [Hlo Hhi] by lia.
    apply IZR_le in Hlo, Hhi. lra.
  - lra.
  - apply interp2_raster22_last_column.
Defined.

(** X4: on a raster whose pixels are an affine function of their column
    and row, interp2 returns that function of the coordinate everywhere on
    the rectangle spanned by the pixel centres, border included. *)
Theorem interp2_affine (I : Image) (x y fillval a b d : R) :
  (forall r c, (0 <= r < rows I)%Z -> (0 <= c < cols I)%Z ->
     pix I r c = a + b * IZR c + d * IZR r) ->
  0 <= x <= IZR (cols I - 1) -> 0 <= y <= IZR (rows I - 1) ->
  interp2 I x y fillval 0 = Val (a + b * x + d * y).
Proof.
  intros Hpix Hx Hy.
  assert (0 <= Zfloor x <= cols I - 1)%Z as Hxi.
  { pose proof (Zfloor_bound x). split.
    - apply (Zfloor_lub 0). lra.
    - apply le_IZR. lra. }
  assert (0 <= Zfloor y <= rows I - 1)%Z as Hyi.
  { pose proof (Zfloor_bound y). split.
    - apply (Zfloor_lub 0). lra.
    - apply le_IZR. lra. }
  split_coordinates x y xi yi fx fy.
  assert (x = IZR xi + fx) as -> by lra.
  assert (y = IZR yi + fy) as -> by lra.
  unfold interp2_at. ztests;
    repeat match goal with
    | |- context [Rgt_dec ?u ?v] => destruct (Rgt_dec u v)
    end;
    try (exfalso; real_equations; lra);
    rewrite ?at_inside by lia; rewrite ?Hpix by lia;
    rewrite ?plus_IZR; cbn [bind]; unfold ret; f_equal;
    try (assert (fx = 0) as -> by lra);
    try (assert (fy = 0) as -> by lra);
    ring.
Qed.

Lemma interp2_affine_witness :
  interp2 raster22 (1 / 2) (1 / 2) 0 0 = Val (1 + 1 * (1 / 2) + 2 * (1 / 2)).
Proof.
  apply (interp2_affine raster22 (1 / 2) (1 / 2) 0 1 1 2).
  - intros r c _ _. cbn [pix raster22].
    rewrite !plus_IZR, mult_IZR. lra.
  - cbn [cols raster22]. change (2 - 1)%Z with 1%Z. lra.
  - cbn [rows raster22]. change (2 - 1)%Z with 1%Z. lra.
Defined.

(** X5: on a raster with at least one row and one column whose dimensions
    fit an int, at a coordinate whose integer parts fit an int, interp2
    returns a value except exactly on the last column above the raster and
    exactly on the last row left of the raster, where it indexes outside
    the raster. *)
Theorem interp2_defined_iff (I : Image) (x y fillval : R) :
  (1 <= rows I)%Z -> (1 <= cols I)%Z ->
  int_sized I -> int_coordinate x -> int_coordinate y ->
  ((exists v, interp2 I x y fillval 0 = Val v) <->
   ~ ((x = IZR (cols I - 1) /\ y < 0) \/ (y = IZR (rows I - 1) /\ x < 0))).
Proof.
  intros Hr Hc _ _ _. split.
  - intros [v Hv] [[-> Hy] | [-> Hx]].
    + rewrite interp2_last_column_above in Hv by assumption. discriminate.
    + rewrite interp2_last_row_left in Hv by assumption. discriminate.
  - intros Hsafe.
    destruct (interp2_value_or_border I x y fillval Hr Hc)
      as [Hval | [_ [[Ex [Hneg E]] | [Ey [Hneg E]]]]].
    + exact Hval.
    + exfalso. apply Hsafe. left. split; [congruence|].
      pose proof (Zfloor_bound y).
      assert (Zfloor y + 1 <= 0)%Z as Hle by lia.
      apply IZR_le in Hle. rewrite plus_IZR in Hle. lra.
    + exfalso. apply Hsafe. right. split; [congruence|].
      pose proof (Zfloor_bound x).
      assert (Zfloor x + 1 <= 0)%Z as Hle by lia.
      apply IZR_le in Hle. rewrite plus_IZR in Hle. lra.
Qed.

Lemma interp2_defined_iff_witness :
  (exists v, interp2 raster22 (1 / 2) (-1) 0 0 = Val v) <->
  ~ ((1 / 2 = IZR (cols raster22 - 1) /\ -1 < 0)
     \/ (-1 = IZR (rows raster22 - 1) /\ 1 / 2 < 0)).
Proof.
  apply (interp2_defined_iff raster22 (1 / 2) (-1) 0);
    cbn [rows cols raster22]; try lia.
  - apply int_sized_small; cbn [rows cols raster22]; lia.
  - apply (int_coordinate_between (1 / 2) 0); [lra | apply fits_int_small; lia].
  - apply (int_coordinate_IZR (-1)), fits_int_small. lia.
Defined.

(** * Further properties of the patch extractors *)

Lemma square_odd (Radius : nat) :
  square (2 * Z.of_nat Radius + 1)
  = Z.of_nat ((2 * Radius + 1) * (2 * Radius + 1)).
Proof. unfold square. lia. Qed.

(** X6: on a raster with at least one row and one column whose dimensions
    fit an int, a patch whose centre, offset included, is at least Radius
    away from the coordinate zero on both axes, and whose grid has integer
    parts that fit an int, is sampled without indexing outside the raster,
    and the loops store exactly square(2 Radius + 1) values, the size of
    dst. *)
Theorem interpolateFixedPatch_defined (Radius : nat) (I : Image) (p : R * R)
    (fillval offset : R) :
  (1 <= rows I)%Z -> (1 <= cols I)%Z -> int_sized I ->
  INR Radius <= fst p + offset -> INR Radius <= snd p + offset ->
  fits_int (Zfloor (fst p + offset) + Z.of_nat Radius) ->
  fits_int (Zfloor (snd p + offset) + Z.of_nat Radius) ->
  exists dst,
    interpolateFixedPatch Radius I p fillval offset = Val dst /\
    Z.of_nat (length dst) = square (2 * Z.of_nat Radius + 1).
Proof.
  intros Hr Hc _ Hx Hy _ _. rewrite INR_IZR_INZ in Hx, Hy.
  destruct (forGrid_defined Radius
              (fun c r => interp2 I (fst p + offset + IZR c)
                                    (snd p + offset + IZR r) fillval 0))
    as [dst Hdst].
  - intros c r Hin_c Hin_r. apply in_offsets in Hin_c, Hin_r.
    destruct Hin_c as [Hin_c _]. destruct Hin_r as [Hin_r _].
    apply IZR_le in Hin_c, Hin_r. rewrite opp_IZR in Hin_c, Hin_r.
    apply interp2_defined; try assumption; lra.
  - exists dst. split; [exact Hdst|].
    apply forGrid_Val in Hdst. destruct Hdst as [-> _].
    symmetry. apply square_odd.
Qed.

Lemma interpolateFixedPatch_defined_witness :
  exists dst,
    interpolateFixedPatch 2 raster22 (5 / 2, 2) 0 0 = Val dst /\
    Z.of_nat (length dst) = square (2 * Z.of_nat 2 + 1).
Proof.
  assert (Zfloor (5 / 2 + 0) = 2%Z) as Ex by (apply Zfloor_eq; lra).
  assert (Zfloor (2 + 0) = 2%Z) as Ey by (apply Zfloor_eq; lra).
  apply (interpolateFixedPatch_defined 2 raster22 (5 / 2, 2) 0 0);
    cbn [rows cols raster22 fst snd INR]; try lia; try lra.
  - apply int_sized_small; cbn [rows cols raster22]; lia.
  - rewrite Ex. apply fits_int_small. lia.
  - rewrite Ey. apply fits_int_small. lia.
Defined.

(** X7: around an integer centre whose grid lies inside the raster the
    sampled patch is the block of pixels itself, column after column:
    entry i (2 Radius + 1) + j is the pixel of column x + i - Radius and
    row y + j - Radius. *)
Theorem interpolateFixedPatch_pixels (Radius : nat) (I : Image) (x y : Z)
    (fillval : R) :
  (Z.of_nat Radius <= x)%Z -> (x + Z.of_nat Radius < cols I)%Z ->
  (Z.of_nat Radius <= y)%Z -> (y + Z.of_nat Radius < rows I)%Z ->
  let n := (2 * Radius + 1)%nat in
  exists dst,
    interpolateFixedPatch Radius I (IZR x, IZR y) fillval 0 = Val dst /\
    length dst = (n * n)%nat /\
    forall i j, (i < n)%nat -> (j < n)%nat ->
      nth (i * n + j) dst 0
      = pix I (y + (Z.of_nat j - Z.of_nat Radius))
              (x + (Z.of_nat i - Z.of_nat Radius)).
Proof.
  intros Hx0 Hx1 Hy0 Hy1 n.
  set (g := fun c r : Z => pix I (y + r) (x + c)).
  assert (interpolateFixedPatch Radius I (IZR x, IZR y) fillval 0
          = Val (concat (map (fun c => map (g c) (offsets Radius))
                             (offsets Radius)))) as Hdst.
  { unfold interpolateFixedPatch. apply forGrid_pure.
    intros c r Hin_c Hin_r. apply in_offsets in Hin_c, Hin_r. cbn [fst snd].
    replace (IZR x + 0 + IZR c) with (IZR (x + c)) by (rewrite plus_IZR; ring).
    replace (IZR y + 0 + IZR r) with (IZR (y + r)) by (rewrite plus_IZR; ring).
    apply interp2_integer; lia. }
  eexists. split; [exact Hdst|].
  unfold interpolateFixedPatch in Hdst. apply forGrid_Val in Hdst.
  destruct Hdst as [Hlen Hnth]. split; [exact Hlen|].
  intros i j Hi Hj. specialize (Hnth i j 0 Hi Hj). cbn [fst snd] in Hnth.
  replace (IZR x + 0 + IZR (Z.of_nat i - Z.of_nat Radius))
    with (IZR (x + (Z.of_nat i - Z.of_nat Radius))) in Hnth
    by (rewrite plus_IZR; ring).
  replace (IZR y + 0 + IZR (Z.of_nat j - Z.of_nat Radius))
    with (IZR (y + (Z.of_nat j - Z.of_nat Radius))) in Hnth
    by (rewrite plus_IZR; ring).
  rewrite interp2_integer in Hnth by lia.
  injection Hnth as Hnth. symmetry. exact Hnth.
Qed.

Lemma interpolateFixedPatch_pixels_witness :
  exists dst,
    interpolateFixedPatch 2 raster55 (IZR 2, IZR 2) 0 0 = Val dst /\
    length dst = 25%nat /\
    forall i j, (i < 5)%nat -> (j < 5)%nat ->
      nth (i * 5 + j) dst 0
      = pix raster55 (2 + (Z.of_nat j - Z.of_nat 2))
                     (2 + (Z.of_nat i - Z.of_nat 2)).
Proof.
  apply (interpolateFixedPatch_pixels 2 raster55 2 2 0);
    cbn [rows cols raster55]; lia.
Defined.

(** X8: copyFixedPatch returns a patch exactly when the raster has more
    than Radius columns and more than Radius rows; otherwise its lower clamp
    indexes outside the raster.  A returned patch has square(2 Radius + 1)
    entries. *)
Theorem copyFixedPatch_defined_iff (Radius : nat) (I : Image) (p : R * R) :
  ((exists dst, copyFixedPatch Radius I p = Val dst) <->
   (Z.of_nat Radius < cols I)%Z /\ (Z.of_nat Radius < rows I)%Z) /\
  (forall dst, copyFixedPatch Radius I p = Val dst ->
     Z.of_nat (length dst) = square (2 * Z.of_nat Radius + 1)).
Proof.
  split; [split|].
  - intros [dst Hdst]. unfold copyFixedPatch in Hdst.
    apply forGrid_Val in Hdst. destruct Hdst as [_ Hnth].
    specialize (Hnth 0%nat 0%nat 0 ltac:(lia) ltac:(lia)).
    apply at_Val in Hnth. lia.
  - intros [Hc Hr]. rewrite copyFixedPatch_clamp by assumption.
    eexists. reflexivity.
  - intros dst Hdst. unfold copyFixedPatch in Hdst.
    apply forGrid_Val in Hdst. destruct Hdst as [-> _].
    symmetry. apply square_odd.
Qed.

(** X9: when the rounded centre is at least 2 Radius away from the first
    column and row and at least Radius away from the last ones, the copied
    patch is the patch interpolateFixedPatch samples around the rounded
    centre. *)
Theorem copyFixedPatch_interpolate (Radius : nat) (I : Image) (p : R * R)
    (fillval : R) :
  (2 * Z.of_nat Radius <= round (fst p))%Z ->
  (round (fst p) + Z.of_nat Radius < cols I)%Z ->
  (2 * Z.of_nat Radius <= round (snd p))%Z ->
  (round (snd p) + Z.of_nat Radius < rows I)%Z ->
  copyFixedPatch Radius I p
  = interpolateFixedPatch Radius I
      (IZR (round (fst p)), IZR (round (snd p))) fillval 0.
Proof.
  intros Hx0 Hx1 Hy0 Hy1.
  set (x := round (fst p)) in *. set (y := round (snd p)) in *.
  set (g := fun c r : Z => pix I (y + r) (x + c)).
  transitivity (Val (concat (map (fun c => map (g c) (offsets Radius))
                                 (offsets Radius)))).
  - unfold copyFixedPatch. fold x y. apply forGrid_pure.
    intros c r Hin_c Hin_r. apply in_offsets in Hin_c, Hin_r.
    rewrite Z.max_r, Z.min_l, Z.max_r, Z.min_l by lia.
    apply at_inside; lia.
  - symmetry. unfold interpolateFixedPatch. apply forGrid_pure.
    intros c r Hin_c Hin_r. apply in_offsets in Hin_c, Hin_r. cbn [fst snd].
    replace (IZR x + 0 + IZR c) with (IZR (x + c)) by (rewrite plus_IZR; ring).
    replace (IZR y + 0 + IZR r) with (IZR (y + r)) by (rewrite plus_IZR; ring).
    apply interp2_integer; lia.
Qed.

Lemma copyFixedPatch_defined_iff_witness :
  exists dst, copyFixedPatch 2 raster55 (0, 0) = Val dst.
Proof.
  apply (proj1 (copyFixedPatch_defined_iff 2 raster55 (0, 0))).
  cbn [rows cols raster55]. lia.
Defined.

Lemma copyFixedPatch_interpolate_witness :
  copyFixedPatch 1 raster55 (IZR 2, IZR 2)
  = interpolateFixedPatch 1 raster55
      (IZR (round (IZR 2)), IZR (round (IZR 2))) 0 0.
Proof.
  apply (copyFixedPatch_interpolate 1 raster55 (IZR 2, IZR 2) 0);
    cbn [fst snd rows cols raster55]; rewrite (round_integer 2); lia.
Defined.

(** * Further properties of ZnccPatch *)

Lemma mapA_compat {A B : Type} (f f' : A -> access B) (h : B -> B)
    (l : list A) (bs : list B) :
  (forall a v, In a l -> f a = Val v -> f' a = Val (h v)) ->
  mapA f l = Val bs -> mapA f' l = Val (map h bs).
Proof.
  revert bs. induction l as [|a l IH]; intros bs Hh H; cbn [mapA] in *.
  - injection H as <-. reflexivity.
  - destruct (f a) as [v|] eqn:Ea; cbn [bind] in H; [|discriminate].
    destruct (mapA f l) as [vs|] eqn:El; cbn [bind] in H; [|discriminate].
    injection H as <-.
    rewrite (Hh a v (or_introl eq_refl) Ea).
    rewrite (IH vs (fun a' v' Hin => Hh a' v' (or_intror Hin)) eq_refl).
    reflexivity.
Qed.

Lemma forGrid_compat {A : Type} (Radius : nat) (body body' : Z -> Z -> access A)
    (h : A -> A) (l : list A) :
  (forall c r v, In c (offsets Radius) -> In r (offsets Radius) ->
     body c r = Val v -> body' c r = Val (h v)) ->
  forGrid Radius body = Val l -> forGrid Radius body' = Val (map h l).
Proof.
  intros Hh H. unfold forGrid in *.
  destruct (mapA (fun c => mapA (fun r => body c r) (offsets Radius))
                 (offsets Radius)) as [columns|] eqn:E;
    cbn [bind] in H; [|discriminate].
  injection H as <-.
  assert (mapA (fun c => mapA (fun r => body' c r) (offsets Radius))
               (offsets Radius) = Val (map (map h) columns)) as ->.
  { apply (mapA_compat (fun c => mapA (fun r => body c r) (offsets Radius)));
      [|exact E].
    intros c col Hc Hcol.
    apply (mapA_compat (fun r => body c r)); [|exact Hcol].
    intros r v Hr Hv. exact (Hh c r v Hc Hr Hv). }
  cbn [bind]. unfold ret. rewrite concat_map. reflexivity.
Qed.

Lemma at_scale_image (s : R) (I : Image) (r c : Z) (v : R) :
  at_ I r c = Val v -> at_ (scale_image s I) r c = Val (s * v).
Proof.
  intros H. apply at_Val in H. destruct H as [Hr [Hc ->]].
  apply (at_inside (scale_image s I)); assumption.
Qed.

Lemma at_shift_image (b : R) (I : Image) (r c : Z) (v : R) :
  at_ I r c = Val v -> at_ (shift_image b I) r c = Val (v + b).
Proof.
  intros H. apply at_Val in H. destruct H as [Hr [Hc ->]].
  apply (at_inside (shift_image b I)); assumption.
Qed.

(** Every branch of the sampler is linear in the pixels and the fill
    value. *)
Lemma interp2_scale_image (s : R) (I : Image) (x y fillval v : R) :
  interp2 I x y fillval 0 = Val v ->
  interp2 (scale_image s I) x y (s * fillval) 0 = Val (s * v).
Proof.
  rewrite !interp2_floor. unfold interp2_at. cbn [rows cols scale_image].
  set (xi := Zfloor x). set (yi := Zfloor y).
  set (fx := x - IZR xi). set (fy := y - IZR yi).
  ztests;
    repeat match goal with
    | |- context [Rgt_dec ?a ?b] => destruct (Rgt_dec a b)
    end;
    repeat match goal with
    | |- context [at_ I ?r ?c] =>
        let E := fresh "E" in
        destruct (at_ I r c) eqn:E; cbn [bind]; [|discriminate];
        rewrite (at_scale_image s I r c _ E); cbn [bind]
    end;
    unfold ret; intros Hv; injection Hv as <-; f_equal; ring.
Qed.

Lemma sum_map_scale (s : R) (l : list R) :
  sum (map (Rmult s) l) = s * sum l.
Proof.
  induction l as [|a l IH]; cbn [map sum fold_right].
  - ring.
  - fold (sum (map (Rmult s) l)). fold (sum l). rewrite IH. ring.
Qed.

Lemma dot_map_scale (s t : R) (u v : list R) :
  dot (map (Rmult s) u) (map (Rmult t) v) = s * t * dot u v.
Proof.
  revert v. induction u as [|a u IH]; intros [|b v]; cbn [map dot];
    try ring.
  rewrite IH. ring.
Qed.

Lemma norm_map_scale (s : R) (v : list R) :
  norm (map (Rmult s) v) = Rabs s * norm v.
Proof.
  unfold norm. rewrite dot_map_scale.
  rewrite sqrt_mult by (try apply dot_self_nonneg; nra).
  fold (Rsqr s). rewrite sqrt_Rsqr_abs. reflexivity.
Qed.

Lemma samples_scale_image (Radius : nat) (s : R) (I : Image) (uv : R * R)
    (samples : list R) :
  interpolateFixedPatch Radius I uv 0 0 = Val samples ->
  interpolateFixedPatch Radius (scale_image s I) uv 0 0
  = Val (map (Rmult s) samples).
Proof.
  unfold interpolateFixedPatch. apply forGrid_compat.
  intros c r v _ _ Hv.
  replace 0 with (s * 0) at 3 by ring.
  apply interp2_scale_image. exact Hv.
Qed.

Lemma dot_scale_r (s : R) (u v : list R) :
  dot u (map (Rmult s) v) = s * dot u v.
Proof.
  revert v. induction u as [|a u IH]; intros [|b v]; cbn [map dot];
    try ring.
  rewrite IH. ring.
Qed.

Lemma dot_scale_l (s : R) (u v : list R) :
  dot (map (Rmult s) u) v = s * dot u v.
Proof. rewrite dot_comm, dot_scale_r, dot_comm. reflexivity. Qed.

Lemma set_scale_image_patch (Radius : nat) (s : R) (I : Image) (uv : R * R)
    (a : ZnccPatch) :
  Zncc.set Radius I uv = Val a ->
  Zncc.set Radius (scale_image s I) uv
  = Val (mkZnccPatch (map (Rmult s) (_data a)) (Rabs s * _norm a)).
Proof.
  intros Hset. apply set_Val in Hset. destruct Hset as [samples [Hs ->]].
  rewrite (set_patch_of _ _ _ _ (samples_scale_image Radius s I uv samples Hs)).
  unfold patch_of. cbn [_data _norm]. rewrite <- norm_map_scale.
  assert (map (fun v => v - sum (map (Rmult s) samples) / IZR (Dimension Radius))
              (map (Rmult s) samples)
          = map (Rmult s)
              (map (fun v => v - sum samples / IZR (Dimension Radius)) samples))
    as ->; [|reflexivity].
  rewrite !map_map. apply map_ext. intros v.
  rewrite sum_map_scale. unfold Rdiv. ring.
Qed.

(** X10: multiplying every pixel of the raster by a gain s multiplies every
    entry of the patch set builds by s and its cached norm by the absolute
    value of s. *)
Theorem set_scale_image (Radius : nat) (s : R) (I : Image) (uv : R * R)
    (a : ZnccPatch) :
  Zncc.set Radius I uv = Val a ->
  exists b,
    Zncc.set Radius (scale_image s I) uv = Val b /\
    _data b = map (Rmult s) (_data a) /\
    _norm b = Rabs s * _norm a.
Proof.
  intros Hset. eexists. split.
  - apply set_scale_image_patch. exact Hset.
  - split; reflexivity.
Qed.

Lemma set_scale_image_witness :
  exists b,
    Zncc.set 2 (scale_image 3 (raster_bar 1 1)) (2, 2) = Val b /\
    _data b = map (Rmult 3) (_data (patch_bar1 1)) /\
    _norm b = Rabs 3 * _norm (patch_bar1 1).
Proof.
  apply (set_scale_image 2 3 (raster_bar 1 1) (2, 2) (patch_bar1 1)).
  apply set_raster_bar1.
Defined.

(** X11: in exact arithmetic, the patch of a raster and the patch of the
    same raster under a gain s, taken at the same place, score s / |s|
    whenever the product of their norms exceeds 1e-6: 1 for a positive gain,
    -1 for a negative one. *)
Theorem score_scaled_raster (Radius : nat) (s : R) (I : Image) (uv : R * R)
    (a b : ZnccPatch) :
  Zncc.set Radius I uv = Val a ->
  Zncc.set Radius (scale_image s I) uv = Val b ->
  _norm a * _norm b > 1e-6 ->
  Zncc.score a b = s / Rabs s.
Proof.
  intros Ha Hb Hd.
  rewrite (set_scale_image_patch Radius s I uv a Ha) in Hb.
  injection Hb as <-. cbn [_norm _data] in *.
  rewrite score_above by exact Hd. cbn [_norm _data].
  rewrite dot_scale_r, <- norm_norm, <- (set_norm _ _ _ _ Ha).
  pose proof (Rabs_pos s) as Hs.
  assert (_norm a <> 0) by (intros E; rewrite E in Hd; lra).
  assert (Rabs s <> 0) by (intros E; rewrite E in Hd; lra).
  field. split; assumption.
Qed.

Lemma score_scaled_raster_witness :
  Zncc.score (patch_bar1 1)
    (mkZnccPatch (map (Rmult (-2)) (_data (patch_bar1 1)))
                 (Rabs (-2) * _norm (patch_bar1 1)))
  = -2 / Rabs (-2).
Proof.
  apply (score_scaled_raster 2 (-2) (raster_bar 1 1) (2, 2)).
  - apply set_raster_bar1.
  - apply set_scale_image_patch, set_raster_bar1.
  - cbn [_norm]. rewrite Rabs_left by lra.
    unfold patch_bar1. rewrite norm_patch_of. fold (patch_bar1 1).
    replace (norm (_data (patch_bar1 1))
             * (- -2 * norm (_data (patch_bar1 1))))
      with (2 * (norm (_data (patch_bar1 1)) * norm (_data (patch_bar1 1))))
      by ring.
    rewrite norm_norm, dot_patch_bar1. lra.
Defined.

(** X12: in exact arithmetic, a positive gain on the raster does not change
    the score of its patch against any other patch, as long as the product
    of the norms exceeds 1e-6 both without and with the gain. *)
Theorem score_gain_invariant (Radius : nat) (s : R) (I : Image) (uv : R * R)
    (a b c : ZnccPatch) :
  0 < s ->
  Zncc.set Radius I uv = Val a ->
  Zncc.set Radius (scale_image s I) uv = Val b ->
  _norm a * _norm c > 1e-6 ->
  _norm b * _norm c > 1e-6 ->
  Zncc.score b c = Zncc.score a c.
Proof.
  intros Hs Ha Hb Hda Hdb.
  rewrite (set_scale_image_patch Radius s I uv a Ha) in Hb.
  injection Hb as <-. cbn [_norm _data] in *.
  rewrite !score_above by assumption. cbn [_norm _data].
  rewrite dot_scale_l. rewrite Rabs_right in * by lra.
  assert (_norm a <> 0) by (intros E; rewrite E in Hda; lra).
  assert (_norm c <> 0) by (intros E; rewrite E in Hda; lra).
  field. repeat split; try assumption; lra.
Qed.

Lemma score_gain_invariant_witness :
  Zncc.score
    (mkZnccPatch (map (Rmult 2) (_data (patch_bar1 1)))
                 (Rabs 2 * _norm (patch_bar1 1)))
    (patch_bar1 1)
  = Zncc.score (patch_bar1 1) (patch_bar1 1).
Proof.
  assert (_norm (patch_bar1 1) * _norm (patch_bar1 1) = 24 / 25) as Hd.
  { unfold patch_bar1. rewrite norm_patch_of. fold (patch_bar1 1).
    rewrite norm_norm, dot_patch_bar1. lra. }
  apply (score_gain_invariant 2 2 (raster_bar 1 1) (2, 2)).
  - lra.
  - apply set_raster_bar1.
  - apply set_scale_image_patch, set_raster_bar1.
  - rewrite Hd. lra.
  - cbn [_norm]. rewrite Rabs_right by lra.
    rewrite Rmult_assoc, Hd. lra.
Defined.

Lemma interp2_shift_image (b : R) (I : Image) (x y fillval v : R) :
  (0 <= Zfloor x < cols I - 1)%Z -> (0 <= Zfloor y < rows I - 1)%Z ->
  interp2 I x y fillval 0 = Val v ->
  interp2 (shift_image b I) x y fillval 0 = Val (v + b).
Proof.
  intros Hx Hy. rewrite !interp2_floor. unfold interp2_at.
  cbn [rows cols shift_image].
  set (xi := Zfloor x) in *. set (yi := Zfloor y) in *.
  set (fx := x - IZR xi). set (fy := y - IZR yi).
  ztests.
  rewrite !at_inside by lia.
  rewrite !(at_inside (shift_image b I)) by (cbn [rows cols shift_image]; lia).
  cbn [bind pix shift_image]. unfold ret.
  intros Hv. injection Hv as <-. f_equal. ring.
Qed.

Lemma sum_map_shift (b : R) (l : list R) :
  sum (map (fun v => v + b) l) = sum l + INR (length l) * b.
Proof.
  induction l as [|a l IH].
  - cbn. ring.
  - cbn [map sum fold_right]. fold (sum (map (fun v => v + b) l)).
    fold (sum l). rewrite IH.
    change (length (a :: l)) with (S (length l)). rewrite S_INR. ring.
Qed.

(** X13: in exact arithmetic, adding a brightness b to every pixel of the
    raster does not change the patch set builds, when the grid stays off the
    borders of the raster. *)
Theorem set_shift_image (Radius : nat) (b : R) (I : Image) (uv : R * R)
    (a : ZnccPatch) :
  (Z.of_nat Radius <= Zfloor (fst uv))%Z ->
  (Zfloor (fst uv) + Z.of_nat Radius < cols I - 1)%Z ->
  (Z.of_nat Radius <= Zfloor (snd uv))%Z ->
  (Zfloor (snd uv) + Z.of_nat Radius < rows I - 1)%Z ->
  Zncc.set Radius I uv = Val a ->
  Zncc.set Radius (shift_image b I) uv = Val a.
Proof.
  intros Hx0 Hx1 Hy0 Hy1 Hset.
  apply set_Val in Hset. destruct Hset as [samples [Hs ->]].
  assert (interpolateFixedPatch Radius (shift_image b I) uv 0 0
          = Val (map (fun v => v + b) samples)) as Hs'.
  { revert Hs. unfold interpolateFixedPatch. apply forGrid_compat.
    intros c r v Hin_c Hin_r Hv. apply in_offsets in Hin_c, Hin_r.
    apply interp2_shift_image; [| |exact Hv];
      rewrite Rplus_0_r, Zfloor_addz; lia. }
  rewrite (set_patch_of _ _ _ _ Hs'). unfold patch_of.
  pose proof (length_samples _ _ _ _ _ Hs) as Hdim.
  pose proof (Dimension_positive Radius) as Hpos.
  assert (map (fun v => v - sum (map (fun v0 => v0 + b) samples)
                            / IZR (Dimension Radius))
              (map (fun v => v + b) samples)
          = map (fun v => v - sum samples / IZR (Dimension Radius)) samples)
    as ->; [|reflexivity].
  rewrite map_map. apply map_ext. intros v.
  rewrite sum_map_shift, <- Hdim. field. lra.
Qed.

Lemma set_shift_image_witness :
  Zncc.set 2 (shift_image 10 (raster_flat 6 1)) (2, 2) = Val (patch_flat 1).
Proof.
  apply (set_shift_image 2 10 (raster_flat 6 1) (2, 2) (patch_flat 1));
    cbn [fst snd rows cols raster_flat]; rewrite ?(ZfloorZ 2); try (cbn; lia).
  apply set_patch_of, samples_flat_middle.
Defined.

Lemma dot_self_zero (l : list R) :
  dot l l = 0 -> forall v, In v l -> v = 0.
Proof.
  induction l as [|a l IH]; intros H v Hin; [contradiction|].
  cbn [dot] in H. pose proof (dot_self_nonneg l) as Hl.
  assert (a * a = 0 /\ dot l l = 0) as [Ha Hd] by nra.
  destruct Hin as [<- | Hin].
  - nra.
  - exact (IH Hd v Hin).
Qed.

(** X14: in exact arithmetic, the cached norm of a patch built by set is
    zero exactly when all its samples are equal. *)
Theorem set_norm_zero_iff (Radius : nat) (I : Image) (uv : R * R)
    (samples : list R) (a : ZnccPatch) :
  interpolateFixedPatch Radius I uv 0 0 = Val samples ->
  Zncc.set Radius I uv = Val a ->
  (_norm a = 0 <-> exists v, forall s, In s samples -> s = v).
Proof.
  intros Hs Hset. split.
  - intros Hn. apply set_Val in Hset. destruct Hset as [samples' [Hs' ->]].
    rewrite Hs in Hs'. injection Hs' as <-. cbn [_norm] in Hn.
    exists (sum samples / IZR (Dimension Radius)). intros s Hin.
    assert (dot (map (fun v => v - sum samples / IZR (Dimension Radius)) samples)
                (map (fun v => v - sum samples / IZR (Dimension Radius)) samples)
            = 0) as Hdot.
    { rewrite <- norm_norm, Hn. ring. }
    pose proof (dot_self_zero _ Hdot (s - sum samples / IZR (Dimension Radius)))
      as Hz.
    assert (s - sum samples / IZR (Dimension Radius) = 0); [|lra].
    apply Hz. apply in_map_iff. exists s. split; [reflexivity | exact Hin].
  - intros [v Hall]. exact (set_equal_samples _ _ _ _ _ _ Hs Hall Hset).
Qed.

Lemma set_norm_zero_iff_witness :
  _norm (patch_flat 1) = 0 <-> exists v, forall s, In s (repeat 1 25) -> s = v.
Proof.
  apply (set_norm_zero_iff 2 (raster_flat 6 1) (2, 2)).
  - apply samples_flat_middle.
  - apply set_patch_of, samples_flat_middle.
Defined.

(** * Further properties of ScenePoint *)

Lemma fold_addFrame (fs : list N) (p : ScenePoint) :
  _f (fold_left SP.addFrame fs p) = _f p ++ fs /\
  _X (fold_left SP.addFrame fs p) = _X p /\
  _X_original (fold_left SP.addFrame fs p) = _X_original p.
Proof.
  revert p. induction fs as [|f fs IH]; intros p; cbn [fold_left].
  - rewrite app_nil_r. repeat split.
  - destruct (IH (SP.addFrame p f)) as [-> [-> ->]]. cbn [SP.addFrame _f _X _X_original].
    rewrite <- app_assoc. repeat split.
Qed.

(** X15: a scene point created with reference frame f and then given the
    frames fs by addFrame, one call each, has the visibility list f followed
    by fs in call order; numFrames is one more than the number of calls,
    refFrameId is f and lastFrameId the frame of the last call. *)
Theorem observed_frames (X : Vec3) (f_id : N) (fs : list N) :
  let p := observed X f_id fs in
  SP.visibilityList p = f_id :: fs /\
  SP.numFrames p = S (length fs) /\
  SP.refFrameId p = Some f_id /\
  SP.lastFrameId p = Some (last fs f_id).
Proof.
  intros p. unfold SP.visibilityList, SP.numFrames, SP.refFrameId,
    SP.lastFrameId.
  assert (_f p = f_id :: fs) as ->.
  { unfold p, observed. destruct (fold_addFrame fs (SP.new X f_id)) as [-> _].
    reflexivity. }
  repeat split.
  assert (last (f_id :: fs) f_id = last fs f_id) as El
    by (destruct fs; reflexivity).
  rewrite (app_removelast_last (l := f_id :: fs) f_id) by discriminate.
  rewrite rev_app_distr, El. reflexivity.
Qed.

(** X16: hasFrame answers whether the frame is in the visibility list; after
    addFrame(f) it holds for f and for every frame it held for before, and
    for no other frame. *)
Theorem hasFrame_addFrame (p : ScenePoint) (f g : N) :
  (SP.hasFrame p g = true <-> In g (SP.visibilityList p)) /\
  SP.hasFrame (SP.addFrame p f) f = true /\
  SP.hasFrame (SP.addFrame p f) g = (SP.hasFrame p g || (g =? f)%N)%bool.
Proof.
  assert (forall q h, SP.hasFrame q h = true <-> In h (_f q)) as Hin.
  { intros q h. unfold SP.hasFrame. rewrite existsb_exists. split.
    - intros [k [Hk E]]. apply N.eqb_eq in E. subst k. exact Hk.
    - intros Hh. exists h. split; [exact Hh | apply N.eqb_refl]. }
  assert (forall h, SP.hasFrame (SP.addFrame p f) h
                    = (SP.hasFrame p h || (h =? f)%N)%bool) as Hadd.
  { intros h. unfold SP.hasFrame. cbn [SP.addFrame _f].
    rewrite existsb_app. cbn [existsb]. rewrite orb_false_r. reflexivity. }
  repeat split.
  - apply Hin.
  - apply Hin.
  - rewrite Hadd, N.eqb_refl. apply orb_true_r.
  - apply Hadd.
Qed.

Lemma step_original (ok : ScenePoint -> N -> Prop) (p p' : ScenePoint) :
  SP.step ok p p' -> _X_original p' = _X_original p.
Proof.
  intros Hstep. destruct Hstep as [ | | p I x p' Hset | | | | ];
    try reflexivity.
  unfold SP.setZnccPach in Hset.
  destruct (Zncc.set 2 I x); cbn [bind] in Hset; [|discriminate].
  injection Hset as <-. reflexivity.
Qed.

(** X17: whatever member functions are called on a scene point, the position
    X() can be overwritten included, getOriginalPoint keeps returning the
    position the point was created with. *)
Theorem original_point_kept (X : Vec3) (f_id : N) (p : ScenePoint) :
  SP.reachable SP.any_frame X f_id p -> _X_original p = X.
Proof.
  induction 1 as [|p p' _ IH Hstep].
  - reflexivity.
  - rewrite (step_original _ _ _ Hstep). exact IH.
Qed.

Lemma original_point_kept_witness :
  _X_original (SP.setX (SP.addFrame (SP.new origin 5%N) 7%N) (1, 2, 3))
  = origin.
Proof.
  apply (original_point_kept origin 5%N).
  apply (SP.reach_step _ _ _ (SP.addFrame (SP.new origin 5%N) 7%N)).
  - apply (SP.reach_step _ _ _ (SP.new origin 5%N)).
    + apply SP.reach_new.
    + apply SP.step_addFrame. exact Logic.I.
  - apply SP.step_setX.
Defined.

Lemma sorted_last_max (l : list N) (m : N) :
  StronglySorted N.lt l -> hd_error (rev l) = Some m ->
  forall g, In g l -> (g <= m)%N.
Proof.
  induction 1 as [|a l Hl IH Ha]; intros Hlast g Hin; [contradiction|].
  destruct l as [|b l].
  - cbn in Hlast. injection Hlast as <-.
    destruct Hin as [<- | []]. lia.
  - assert (hd_error (rev (b :: l)) = Some m) as Hlast'.
    { cbn [rev] in Hlast |- *.
      destruct (rev l ++ [b]) as [|c t] eqn:E.
      - destruct (rev l); discriminate.
      - exact Hlast. }
    destruct Hin as [<- | Hin].
    + assert (In m (b :: l)) as Hm.
      { apply in_rev. destruct (rev (b :: l)); [discriminate|].
        injection Hlast' as ->. left. reflexivity. }
      rewrite Forall_forall in Ha. specialize (Ha m Hm). lia.
    + exact (IH Hlast' g Hin).
Qed.

(** X18: when every call of addFrame passes a frame above the last one, the
    reference frame is the smallest and the last frame the largest frame of
    the visibility list. *)
Theorem frames_between_ref_and_last (X : Vec3) (f_id : N) (p : ScenePoint) :
  SP.reachable SP.later_frame X f_id p ->
  exists l,
    SP.lastFrameId p = Some l /\
    forall g, In g (SP.visibilityList p) -> (f_id <= g <= l)%N.
Proof.
  intros Hreach.
  destruct (reachable_front _ _ _ _ Hreach) as [Hlen Hfront].
  pose proof (reachable_sorted _ _ _ Hreach) as Hsorted.
  unfold SP.lastFrameId, SP.refFrameId, SP.visibilityList in *.
  destruct (hd_error (rev (_f p))) as [l|] eqn:Hlast.
  - exists l. split; [reflexivity|]. intros g Hin. split.
    + destruct (_f p) as [|h t]; [discriminate|].
      injection Hfront as ->.
      destruct Hin as [<- | Hin]; [lia|].
      inversion Hsorted as [|? ? _ Hall]; subst.
      rewrite Forall_forall in Hall. specialize (Hall g Hin). lia.
    + exact (sorted_last_max _ _ Hsorted Hlast g Hin).
  - destruct (_f p) as [|h t]; [discriminate|].
    cbn [rev] in Hlast. destruct (rev t); discriminate.
Qed.

Lemma frames_between_ref_and_last_witness :
  exists l,
    SP.lastFrameId (SP.addFrame (SP.new origin 5%N) 7%N) = Some l /\
    forall g, In g (SP.visibilityList (SP.addFrame (SP.new origin 5%N) 7%N)) ->
      (5 <= g <= l)%N.
Proof.
  apply (frames_between_ref_and_last origin 5%N).
  apply (SP.reach_step _ _ _ (SP.new origin 5%N)).
  - apply SP.reach_new.
  - apply SP.step_addFrame. intros l Hl. cbn in Hl. injection Hl as <-. lia.
Defined.

Lemma samples_defined (Radius : nat) (I : Image) (uv : R * R) :
  (1 <= rows I)%Z -> (1 <= cols I)%Z ->
  INR Radius <= fst uv -> INR Radius <= snd uv ->
  exists samples, interpolateFixedPatch Radius I uv 0 0 = Val samples.
Proof.
  intros Hr Hc Hx Hy. rewrite INR_IZR_INZ in Hx, Hy.
  unfold interpolateFixedPatch. apply forGrid_defined.
  intros c r Hin_c Hin_r. apply in_offsets in Hin_c, Hin_r.
  destruct Hin_c as [Hin_c _]. destruct Hin_r as [Hin_r _].
  apply IZR_le in Hin_c, Hin_r. rewrite opp_IZR in Hin_c, Hin_r.
  apply interp2_defined; try assumption; lra.
Qed.

(** X19: on a raster with at least one row and one column whose dimensions
    fit an int, setZnccPach at a projection at least 2 away from the
    coordinate zero on both axes, whose grid has integer parts that fit an
    int, stores
    the 25-entry patch that set builds there and leaves the position, the
    original position, the visibility list, the descriptor, the saliency, the
    refined flag and the first projection of the scene point as they were. *)
Theorem setZnccPach_stores (p : ScenePoint) (I : Image) (x : R * R) :
  (1 <= rows I)%Z -> (1 <= cols I)%Z -> int_sized I ->
  2 <= fst x -> 2 <= snd x ->
  fits_int (Zfloor (fst x) + 2) -> fits_int (Zfloor (snd x) + 2) ->
  exists z,
    Zncc.set 2 I x = Val z /\ length (_data z) = 25%nat /\
    SP.setZnccPach p I x
    = Val {| _X := _X p; _X_original := _X_original p; _f := _f p;
             _patch := Some z; _descriptor := _descriptor p;
             _saliency := _saliency p; _was_refined := _was_refined p;
             _x := _x p |}.
Proof.
  intros Hr Hc _ Hx Hy _ _.
  destruct (samples_defined 2 I x Hr Hc) as [samples Hs];
    [cbn [INR]; lra | cbn [INR]; lra |].
  exists (patch_of 2 samples).
  pose proof (set_patch_of _ _ _ _ Hs) as Hset.
  split; [exact Hset|]. split.
  - unfold patch_of. cbn [_data]. rewrite length_map.
    unfold interpolateFixedPatch in Hs. apply forGrid_Val in Hs.
    destruct Hs as [-> _]. reflexivity.
  - unfold SP.setZnccPach. rewrite Hset. reflexivity.
Qed.

Lemma setZnccPach_stores_witness :
  exists z,
    Zncc.set 2 raster55 (2, 3) = Val z /\ length (_data z) = 25%nat /\
    SP.setZnccPach (SP.new origin 5%N) raster55 (2, 3)
    = Val {| _X := origin; _X_original := origin; _f := [5%N];
             _patch := Some z; _descriptor := [];
             _saliency := 0; _was_refined := false; _x := None |}.
Proof.
  apply (setZnccPach_stores (SP.new origin 5%N) raster55 (2, 3));
    cbn [rows cols raster55 fst snd]; try lia; try lra.
  - apply int_sized_small; cbn [rows cols raster55]; lia.
  - rewrite (ZfloorZ 2). apply fits_int_small. lia.
  - rewrite (ZfloorZ 3). apply fits_int_small. lia.
Defined.

(** * Symmetry of the sampler and patches outside the raster *)

Lemma at_transpose_image (I : Image) (r c : Z) (v : R) :
  at_ I r c = Val v -> at_ (transpose_image I) c r = Val v.
Proof.
  intros H. apply at_Val in H. destruct H as [Hr [Hc ->]].
  apply (at_inside (transpose_image I)); assumption.
Qed.

(** X20: in exact arithmetic interp2 treats rows and columns alike: the
    value it returns at (x, y) on a raster is the value it returns at (y, x)
    on the raster with rows and columns exchanged. *)
Theorem interp2_transpose (I : Image) (x y fillval v : R) :
  interp2 I x y fillval 0 = Val v ->
  interp2 (transpose_image I) y x fillval 0 = Val v.
Proof.
  rewrite !interp2_floor. unfold interp2_at. cbn [rows cols transpose_image].
  set (xi := Zfloor x). set (yi := Zfloor y).
  set (fx := x - IZR xi). set (fy := y - IZR yi).
  ztests;
    repeat match goal with
    | |- context [Rgt_dec ?a ?b] => destruct (Rgt_dec a b)
    end;
    repeat match goal with
    | |- context [at_ I ?r ?c] =>
        let E := fresh "E" in
        destruct (at_ I r c) eqn:E; cbn [bind]; [|discriminate];
        rewrite ?(at_transpose_image I r c _ E); cbn [bind]
    end;
    unfold ret; intros Hv; injection Hv as <-; try reflexivity;
    f_equal; ring.
Qed.

Lemma interp2_transpose_witness :
  interp2 (transpose_image raster22) (1 / 2) 1 0 0 = Val 3.
Proof.
  apply (interp2_transpose raster22 1 (1 / 2) 0 3).
  apply interp2_raster22_last_column.
Defined.

Lemma interp2_past_raster (I : Image) (x y fillval : R) :
  (cols I <= Zfloor x)%Z \/ (rows I <= Zfloor y)%Z ->
  interp2 I x y fillval 0 = Val fillval.
Proof.
  intros Hpast. rewrite interp2_floor. unfold interp2_at.
  destruct Hpast; ztests; reflexivity.
Qed.

(** X21: on a raster whose dimensions fit an int, a patch whose grid has
    integer parts that fit an int and lies wholly past the last column or
    wholly past the last row samples only the fill value 0: set returns it
    with norm 0, and it scores -1 with every patch, on either side. *)
Theorem set_past_raster (Radius : nat) (I : Image) (uv : R * R) :
  int_sized I ->
  fits_int (Zfloor (fst uv) - Z.of_nat Radius) ->
  fits_int (Zfloor (fst uv) + Z.of_nat Radius) ->
  fits_int (Zfloor (snd uv) - Z.of_nat Radius) ->
  fits_int (Zfloor (snd uv) + Z.of_nat Radius) ->
  (cols I + Z.of_nat Radius <= Zfloor (fst uv))%Z \/
  (rows I + Z.of_nat Radius <= Zfloor (snd uv))%Z ->
  exists a,
    Zncc.set Radius I uv = Val a /\ _norm a = 0 /\
    forall b, Zncc.score a b = -1 /\ Zncc.score b a = -1.
Proof.
  intros _ _ _ _ _ Hpast.
  assert (interpolateFixedPatch Radius I uv 0 0
          = Val (concat (map (fun _ => map (fun _ => 0) (offsets Radius))
                             (offsets Radius)))) as Hs.
  { unfold interpolateFixedPatch. apply (forGrid_pure Radius _ (fun _ _ => 0)).
    intros c r Hin_c Hin_r. apply in_offsets in Hin_c, Hin_r.
    apply interp2_past_raster. rewrite !Rplus_0_r, !Zfloor_addz. lia. }
  pose proof (set_patch_of _ _ _ _ Hs) as Hset.
  assert (_norm (patch_of Radius
                   (concat (map (fun _ => map (fun _ => 0) (offsets Radius))
                                (offsets Radius)))) = 0) as Hn.
  { apply (set_equal_samples _ _ _ _ 0 _ Hs); [|exact Hset].
    intros s. apply in_concat_constant. }
  eexists. split; [exact Hset|]. split; [exact Hn|].
  intros b. split; apply score_not_above; rewrite Hn; lra.
Qed.

Lemma set_past_raster_witness :
  exists a,
    Zncc.set 2 raster22 (IZR 4, IZR 0) = Val a /\ _norm a = 0 /\
    forall b, Zncc.score a b = -1 /\ Zncc.score b a = -1.
Proof.
  apply (set_past_raster 2 raster22 (IZR 4, IZR 0));
    cbn [fst snd]; rewrite ?(ZfloorZ 4), ?(ZfloorZ 0).
  - apply int_sized_small; cbn [rows cols raster22]; lia.
  - apply fits_int_small. lia.
  - apply fits_int_small. lia.
  - apply fits_int_small. lia.
  - apply fits_int_small. lia.
  - left. cbn [cols raster22]. lia.
Defined.
